(** * imap_tools: a shallow embedding of [main.py]

    The development follows the layout of the source file: the module-level
    helpers ([_check_ok_status], [_quote], [_pairs_to_dict]), then the classes
    [MailBox], [MailMessage] and [MailFolderManager], each in a module of its
    name.

    Data.  A Python [str] is a list of Unicode code points ([list N]); a
    [bytes] value is a list of [Byte.byte].  [bytes.decode()] is the strict
    UTF-8 decoder.  A [dict] is a [gmap].  An argument that Python lets be
    either a string or a collection of strings is the tagged union [pyseq].

    Effects.  Methods that talk to the server run in a state-and-exception
    monad over a [world]: the state of the IMAP transport together with the
    log of the transport primitives invoked so far.  A method performs no
    network call exactly when it leaves the world as it found it. *)

From Stdlib Require Import ZArith NArith Lia Strings.String Strings.Ascii Strings.Byte.
From stdpp Require Import base option list gmap.

Open Scope N_scope.

(** ** Python text *)

Abbreviation str := (list N).
Abbreviation bytes := (list byte).

#[global] Instance byte_eq_dec : EqDecision byte := Byte.byte_eq_dec.

(** The [str] literal and the [bytes] literal of the given ASCII text. *)
Definition u (s : string) : str :=
  map N_of_ascii (list_ascii_of_string s).

Definition b (s : string) : bytes :=
  list_byte_of_string s.

Module Text.

Section Generic.
Context {A : Type} `{EqDecision A}.

(** [s.split(sep)] for a separator of one element: always at least one
    piece, empty pieces are kept. *)
Fixpoint split (sep : A) (s : list A) : list (list A) :=
  match s with
  | [] => [[]]
  | c :: s' =>
      if decide (c = sep) then [] :: split sep s'
      else match split sep s' with
           | w :: ws => (c :: w) :: ws
           | [] => [[c]]
           end
  end.

(** [sep.join(parts)]. *)
Fixpoint join (sep : list A) (parts : list (list A)) : list A :=
  match parts with
  | [] => []
  | [p] => p
  | p :: ps => p ++ sep ++ join sep ps
  end.

(** [s.replace(old, new)] for [old] of one element. *)
Definition replace (old : A) (new : list A) (s : list A) : list A :=
  flat_map (fun c => if decide (c = old) then new else [c]) s.

(** [s.startswith(p)]. *)
Fixpoint startswith (p s : list A) : bool :=
  match p, s with
  | [], _ => true
  | x :: p', y :: s' => bool_decide (x = y) && startswith p' s'
  | _ :: _, [] => false
  end.

(** [sub in s] for sequences of the same type. *)
Fixpoint contains (sub s : list A) : bool :=
  startswith sub s ||
  match s with
  | [] => false
  | _ :: s' => contains sub s'
  end.

(** [s.lstrip], [s.rstrip] and [s.strip] for a set of elements given as a
    predicate. *)
Fixpoint lstrip (p : A -> bool) (s : list A) : list A :=
  match s with
  | c :: s' => if p c then lstrip p s' else s
  | [] => []
  end.

Definition rstrip (p : A -> bool) (s : list A) : list A :=
  rev (lstrip p (rev s)).

Definition strip (p : A -> bool) (s : list A) : list A :=
  rstrip p (lstrip p s).

End Generic.

(** [str.isspace] of one code point: the characters [str.strip()] removes. *)
Definition isspace (c : N) : bool :=
  ((9 <=? c) && (c <=? 13)) || ((28 <=? c) && (c <=? 32))
  || (c =? 133) || (c =? 160) || (c =? 5760)
  || ((8192 <=? c) && (c <=? 8202))
  || (c =? 8232) || (c =? 8233) || (c =? 8239) || (c =? 8287) || (c =? 12288).

Definition isascii (s : str) : bool := forallb (fun c => c <? 128) s.

Definition ascii_upper (c : N) : N :=
  if (97 <=? c) && (c <=? 122) then c - 32 else c.

Definition ascii_lower (c : N) : N :=
  if (65 <=? c) && (c <=? 90) then c + 32 else c.

(** The Unicode character database is not part of the repository.  The three
    tables the program consults are parameters; on ASCII text the operations
    below do not look at them. *)
Record unicode := {
  uni_upper : str -> str;     (* str.upper on text with a non-ASCII character *)
  uni_lower : str -> str;     (* str.lower on text with a non-ASCII character *)
  uni_decimal : N -> bool     (* category Nd, for a non-ASCII code point *)
}.

Definition upper (U : unicode) (s : str) : str :=
  if isascii s then map ascii_upper s else uni_upper U s.

Definition lower (U : unicode) (s : str) : str :=
  if isascii s then map ascii_lower s else uni_lower U s.

(** The class [\d] of a [str] pattern. *)
Definition isdecimal (U : unicode) (c : N) : bool :=
  if c <? 128 then (48 <=? c) && (c <=? 57) else uni_decimal U c.

(** *** UTF-8 *)

Definition continuation (x : N) : bool := (128 <=? x) && (x <? 192).

(** The strict UTF-8 decoder over byte values: [None] is
    [UnicodeDecodeError].  Overlong forms, surrogates and values above
    U+10FFFF are refused. *)
Fixpoint utf8_decode (bs : list N) : option str :=
  match bs with
  | [] => Some []
  | b0 :: r0 =>
      if b0 <? 128 then cons b0 <$> utf8_decode r0
      else if b0 <? 194 then None
      else if b0 <? 224 then
        match r0 with
        | b1 :: r1 =>
            if continuation b1
            then cons ((b0 - 192) * 64 + (b1 - 128)) <$> utf8_decode r1
            else None
        | _ => None
        end
      else if b0 <? 240 then
        match r0 with
        | b1 :: b2 :: r2 =>
            if continuation b1 && continuation b2
               && (negb (b0 =? 224) || (160 <=? b1))
               && (negb (b0 =? 237) || (b1 <? 160))
            then cons ((b0 - 224) * 4096 + (b1 - 128) * 64 + (b2 - 128))
                   <$> utf8_decode r2
            else None
        | _ => None
        end
      else if b0 <? 245 then
        match r0 with
        | b1 :: b2 :: b3 :: r3 =>
            if continuation b1 && continuation b2 && continuation b3
               && (negb (b0 =? 240) || (144 <=? b1))
               && (negb (b0 =? 244) || (b1 <? 144))
            then cons ((b0 - 240) * 262144 + (b1 - 128) * 4096
                       + (b2 - 128) * 64 + (b3 - 128))
                   <$> utf8_decode r3
            else None
        | _ => None
        end
      else None
  end.

(** [data.decode()]. *)
Definition decode (data : bytes) : option str :=
  utf8_decode (map Byte.to_N data).

(** [data.decode('ascii')]. *)
Definition decode_ascii (data : bytes) : option str :=
  let s := map Byte.to_N data in
  if isascii s then Some s else None.

End Text.

(** ** Values, exceptions and the transport *)

(** An argument that is a [str] or a collection of [str]: Python iterates a
    string character by character. *)
Inductive pyseq :=
| PStr (s : str)
| PList (l : list str).

(** [not x]. *)
Definition is_empty (x : pyseq) : bool :=
  match x with
  | PStr s => bool_decide (s = [])
  | PList l => bool_decide (l = [])
  end.

(** [for i in x]. *)
Definition iter (x : pyseq) : list str :=
  match x with
  | PStr s => map (fun c => [c]) s
  | PList l => l
  end.

(** A command argument, a header chunk: [str] or [bytes]. *)
Inductive arg :=
| AStr (s : str)
| ABytes (d : bytes).

(** One element of the [data] list of an imaplib response. *)
Inductive item :=
| INone
| IBytes (d : bytes)
| IPair (fst_ snd_ : bytes).

(** The primitives of [imaplib.IMAP4] the program calls on [self.box]. *)
Inductive command :=
| Search (charset : option str) (criteria : str)
| Fetch (message_set : str) (message_parts : str)
| Uid (name : str) (args : list arg)
| Expunge
| Select (mailbox : arg)
| SimpleCommand (name : str) (args : list arg)
| UntaggedResponse (typ : str) (dat : list item) (name : str).

Inductive exn :=
| BaseImapToolsError (command typ : str) (data : list item)
| MailBoxSearchError (typ : str) (data : list item)
| MailBoxWrongFlagError (flag_name : str)
| MailBoxUidParamError (msg : str)
| MailBoxFolderSetError (data : list item)
| MailBoxFolderWrongStatusError (options : list str)
| IMAP4Error (msg : str)
| ValueError (msg : str)
| IndexError
| AttributeError
| TypeError
| LookupError
| UnicodeDecodeError.

Inductive res (A : Type) :=
| Ok (a : A)
| Raise (e : exn).
Arguments Ok {A} a.
Arguments Raise {A} e.

(** What a primitive gives back: the pair [(typ, data)], or an exception of
    the transport. *)
Definition response : Type := str * list item.

(** The transport as a state machine, and the world a method runs in. *)
Record transport := {
  tstate : Type;
  tstep : tstate -> command -> res response * tstate
}.

Definition world (T : transport) : Type := tstate T * list command.

Definition M (T : transport) (A : Type) : Type := world T -> res A * world T.

#[global] Instance res_ret : MRet res := fun A a => Ok a.

#[global] Instance res_bind : MBind res := fun A B f r =>
  match r with
  | Ok a => f a
  | Raise e => Raise e
  end.

#[global] Instance res_fmap : FMap res := fun A B f r =>
  match r with
  | Ok a => Ok (f a)
  | Raise e => Raise e
  end.

#[global] Instance M_ret T : MRet (M T) := fun A a w => (Ok a, w).

#[global] Instance M_bind T : MBind (M T) := fun A B f m w =>
  match m w with
  | (Ok a, w') => f a w'
  | (Raise e, w') => (Raise e, w')
  end.

Definition raise {T A} (e : exn) : M T A := fun w => (Raise e, w).

(** A pure computation that may raise, inside a method. *)
Definition lift {T A} (r : res A) : M T A := fun w => (r, w).

(** [self.box.<primitive>(...)]: one step of the transport, logged. *)
Definition call {T} (c : command) : M T response :=
  fun w => let '(r, s') := tstep T (fst w) c in (r, (s', snd w ++ [c])).

Definition of_option {A} (e : exn) (o : option A) : res A :=
  match o with
  | Some a => Ok a
  | None => Raise e
  end.

Definition OK : str := u "OK".

(** ** Module-level helpers *)

(** [_check_ok_status(command, typ, data)]. *)
Definition _check_ok_status (command typ : str) (data : list item) : res unit :=
  if bool_decide (typ <> OK) then Raise (BaseImapToolsError command typ data)
  else Ok tt.

Definition backslash : N := 92.
Definition dquote : N := 34.

(** [_quote(arg)]: both branches of the [isinstance] test. *)
Definition _quote (a : arg) : arg :=
  match a with
  | AStr s =>
      AStr ([dquote]
            ++ Text.replace dquote [backslash; dquote]
                 (Text.replace backslash [backslash; backslash] s)
            ++ [dquote])
  | ABytes d =>
      ABytes ([Byte.x22]
              ++ Text.replace Byte.x22 [Byte.x5c; Byte.x22]
                   (Text.replace Byte.x5c [Byte.x5c; Byte.x5c] d)
              ++ [Byte.x22])
  end.

(** [dict(pairs)]: later pairs overwrite earlier ones. *)
Definition dict (pairs : list (str * str)) : gmap str str :=
  foldl (fun m kv => <[kv.1 := kv.2]> m) ∅ pairs.

(** [_pairs_to_dict(items)]. *)
Definition _pairs_to_dict (items : list str) : res (gmap str str) :=
  if negb (Nat.eqb (length items mod 2) 0)
  then Raise (ValueError (u "An even-length array is expected"))
  else
    pairs ← of_option IndexError
               (mapM (fun i => k ← items !! (i * 2)%nat;
                               v ← items !! (i * 2 + 1)%nat;
                               Some (k, v))
                     (seq 0 (length items / 2)));
    Ok (dict pairs).

(** ** Regular expressions

    The fragment of [re] the patterns of the program are written in, with the
    backtracking semantics of the [re] module: alternatives are tried in
    priority order (greedy repetition takes the longest run first) and the
    first complete match wins.  Repetition is over character classes, which
    is all the patterns use. *)

Module Re.

Inductive re :=
| Eps
| Chr (c : N)                 (* a literal character *)
| Cls (p : N -> bool)         (* a class: [\d], [.] *)
| Seq (r1 r2 : re)
| Star (p : N -> bool)        (* [c*], greedy *)
| Plus (p : N -> bool)        (* [c+], greedy *)
| Opt (r : re)                (* [r?], greedy *)
| Group (name : str) (r : re) (* [(?P<name>r)] *).

(** Named groups of a match, most recent capture first. *)
Definition groups : Type := list (str * str).

Section Run.
Context {R : Type}.

Fixpoint star (p : N -> bool) (s : str) (k : str -> option R) : option R :=
  match s with
  | c :: s' =>
      if p c then
        match star p s' k with
        | Some r => Some r
        | None => k s
        end
      else k s
  | [] => k s
  end.

(** [run r s g k]: match [r] at the head of [s], then hand the rest of the
    input and the groups to the continuation [k]; [None] asks for the next
    alternative. *)
Fixpoint run (r : re) (s : str) (g : groups)
    (k : str -> groups -> option R) : option R :=
  match r with
  | Eps => k s g
  | Chr c =>
      match s with
      | c' :: s' => if c' =? c then k s' g else None
      | [] => None
      end
  | Cls p =>
      match s with
      | c' :: s' => if p c' then k s' g else None
      | [] => None
      end
  | Seq r1 r2 => run r1 s g (fun s' g' => run r2 s' g' k)
  | Star p => star p s (fun s' => k s' g)
  | Plus p =>
      match s with
      | c' :: s' => if p c' then star p s' (fun s'' => k s'' g) else None
      | [] => None
      end
  | Opt r' =>
      match run r' s g k with
      | Some x => Some x
      | None => k s g
      end
  | Group name r' =>
      run r' s g
        (fun s' g' => k s' ((name, take (length s - length s') s) :: g'))
  end.

End Run.

(** [re.match(r, s)]: anchored at the start of [s]. *)
Definition match_ (r : re) (s : str) : option groups :=
  run r s [] (fun _ g => Some g).

(** [r.search(s)]: the leftmost position with a match. *)
Fixpoint search (r : re) (s : str) : option groups :=
  match match_ r s with
  | Some g => Some g
  | None =>
      match s with
      | [] => None
      | _ :: s' => search r s'
      end
  end.

(** [m.group(name)]; [None] when the group took no part in the match. *)
Definition group (m : groups) (name : str) : option str :=
  snd <$> List.find (fun kv => bool_decide (kv.1 = name)) m.

(** A run of literal characters. *)
Definition lits (l : str) : re :=
  foldr (fun c r => Seq (Chr c) r) Eps l.

(** [.] without DOTALL. *)
Definition dot (c : N) : bool := negb (c =? 10).

End Re.

(** ** Collaborators outside the repository *)

(** [email.message.Message], as far as the program looks at it: the header
    list, the defects found while parsing, and the body. *)
Record Message := {
  _headers : list (str * str);
  defects : list str;
  _payload : bytes
}.

Record externals := {
  unicode_db : Text.unicode;
  imap_utf7_encode : str -> bytes;                 (* imap_utf7.encode *)
  message_from_bytes : bytes -> Message;           (* email.message_from_bytes *)
  decode_header : str -> list (arg * option str);  (* email.header.decode_header *)
  codec_decode : str -> bytes -> res str;          (* value.decode(encoding) *)
  utf8_ignore : bytes -> str                       (* value.decode('utf-8', 'ignore') *)
}.

(** [bool(message_obj)]: a [Message] has [__len__], the number of headers. *)
Definition truthy (m : Message) : bool := negb (bool_decide (_headers m = [])).

(** [name in message_obj], and the value [message_obj[name]] starts from:
    header names compare without case, and the value stored with the first
    header of that name is looked up. *)
Definition has_header (U : Text.unicode) (name : str) (m : Message) : bool :=
  existsb (fun kv => bool_decide (Text.lower U kv.1 = Text.lower U name))
          (_headers m).

Definition get_header (U : Text.unicode) (name : str) (m : Message) : option str :=
  snd <$> List.find
            (fun kv => bool_decide (Text.lower U kv.1 = Text.lower U name))
            (_headers m).

(** What [message_obj[name]] hands out for a stored value.  The parser keeps
    a header as ASCII text with every raw 8-bit byte as a surrogate escape
    (U+DC80 to U+DCFF).  A value that holds a surrogate comes back wrapped in
    an [email.header.Header], any other as the [str] itself.  The functions
    of the [email] package take either; [decode_header E] is given the
    stored value, which determines the wrapped one. *)
Inductive header_value :=
| HStr (value : str)
| HHeader (value : str).

(** [_has_surrogates(value)]: the text cannot be encoded as UTF-8. *)
Definition has_surrogates (value : str) : bool :=
  existsb (fun c => (55296 <=? c) && (c <=? 57343)) value.

Definition getitem (U : Text.unicode) (name : str) (m : Message)
    : option header_value :=
  (fun value => if has_surrogates value then HHeader value else HStr value)
    <$> get_header U name m.

(** [str(value)]: a [Header] made from a value of the parser shows every
    escaped byte as U+FFFD. *)
Definition header_str (value : header_value) : str :=
  match value with
  | HStr s => s
  | HHeader s => map (fun c => if (56448 <=? c) && (c <=? 56575) then 65533 else c) s
  end.

(** ** class MailMessage (the data; its accessors follow [MailBox]) *)

Record MailMessage_ := {
  msg_id : str;
  msg_uid : option str;
  msg_obj : Message
}.

(** ** class MailBox *)

Module MailBox.

Section WithExternals.
Variable E : externals.

(** [pattern_uid_re_set]. *)
Definition pattern_uid_re_set : list Re.re :=
  [ Re.Seq (Re.lits (u "(UID "))
      (Re.Seq (Re.Group (u "uid") (Re.Plus (Text.isdecimal (unicode_db E))))
         (Re.lits (u " RFC822")));
    Re.Seq (Re.Group (u "uid") (Re.Plus (Text.isdecimal (unicode_db E))))
      (Re.lits (u " (RFC822")) ].

(** [standard_rw_flags]. *)
Definition standard_rw_flags : list str :=
  [u "SEEN"; u "ANSWERED"; u "FLAGGED"; u "DELETED"; u "DRAFT"].

(** The loop of [_parse_uid] over a pattern list; [data.decode()] is
    evaluated in its body. *)
Fixpoint _parse_uid_with (patterns : list Re.re) (data : bytes)
    : res (option str) :=
  match patterns with
  | [] => Ok None
  | pattern_uid_re :: rest =>
      match Text.decode data with
      | None => Raise UnicodeDecodeError
      | Some text =>
          match Re.search pattern_uid_re text with
          | Some uid_match => Ok (Re.group uid_match (u "uid"))
          | None => _parse_uid_with rest data
          end
      end
  end.

Definition _parse_uid (data : bytes) : res (option str) :=
  _parse_uid_with pattern_uid_re_set data.

(** [_clean_message_data(data)]. *)
Definition _clean_message_data (data : list item) : bytes * bytes :=
  foldl (fun acc x =>
           match x with
           | IBytes d => if Text.contains (b "(FLAGS") d then acc else acc
           | IPair d0 d1 => (d1, d0)
           | INone => acc
           end)
        ([], []) data.

(** [_uid_str(uid_list)]. *)
Definition _uid_str (uid_list : pyseq) : res str :=
  if is_empty uid_list
  then Raise (MailBoxUidParamError (u "uid_list should be not empty"))
  else match uid_list with
       | PStr _ => Raise (MailBoxUidParamError (u "uid_list can not be str"))
       | PList l => Ok (Text.join (u ",") l)
       end.

(** The validation loop at the head of [flag]. *)
Fixpoint check_flags (flag_set : list str) : res unit :=
  match flag_set with
  | [] => Ok tt
  | flag_name :: rest =>
      if bool_decide (Text.upper (unicode_db E) flag_name ∈ standard_rw_flags)
      then check_flags rest
      else Raise (MailBoxWrongFlagError flag_name)
  end.

Section WithTransport.
Variable T : transport.

Definition expunge : M T response := call Expunge.

Definition delete (uid_list : pyseq) : M T (response * response) :=
  uid_arg ← lift (_uid_str uid_list);
  store_result ←
    call (Uid (u "STORE") [AStr uid_arg; AStr (u "+FLAGS"); AStr (u "(\Deleted)")]);
  expunge_result ← expunge;
  mret (store_result, expunge_result).

Definition copy (uid_list : pyseq) (destination_folder : str) : M T response :=
  uid_arg ← lift (_uid_str uid_list);
  call (Uid (u "COPY") [AStr uid_arg; AStr destination_folder]).

Definition move (uid_list : pyseq) (destination_folder : str)
    : M T (response * (response * response)) :=
  uid_arg ← lift (_uid_str uid_list);
  copy_result ← copy (PStr uid_arg) destination_folder;
  delete_result ← delete (PStr uid_arg);
  mret (copy_result, delete_result).

Definition flag (uid_list flag_set : pyseq) (value : bool)
    : M T (response * response) :=
  _ ← lift (check_flags (iter flag_set));
  uid_arg ← lift (_uid_str uid_list);
  store_result ←
    call (Uid (u "STORE")
            [AStr uid_arg;
             AStr ((if value then u "+" else u "-") ++ u "FLAGS");
             AStr (u "(" ++ Text.join (u " ")
                              (map (fun i => backslash :: i) (iter flag_set))
                   ++ u ")")]);
  expunge_result ← expunge;
  mret (store_result, expunge_result).

Definition seen (uid_list : pyseq) (seen_val : bool) : M T (response * response) :=
  flag uid_list (PStr (u "Seen")) seen_val.

(** What iterating a generator to its end gives: the values yielded, and the
    exception that ended the iteration, if one did. *)
Definition generated (A : Type) : Type := list A * option exn.

(** [if limit and i >= limit]. *)
Definition limit_reached (limit : option Z) (i : nat) : bool :=
  match limit with
  | None => false
  | Some l => negb (l =? 0)%Z && (l <=? Z.of_nat i)%Z
  end.

(** The body of the [for] loop of [fetch], from the [i]-th id on. *)
Fixpoint fetch_loop (limit : option Z) (miss_defect : bool)
    (ids : list str) (i : nat) (w : world T)
    : generated MailMessage_ * world T :=
  match ids with
  | [] => (([], None), w)
  | message_id :: rest =>
      if limit_reached limit i then (([], None), w)
      else
        match call (Fetch message_id (u "(RFC822 UID)")) w with
        | (Raise e, w1) => (([], Some e), w1)
        | (Ok (typ, data), w1) =>
            let '(message_data, uid_data) := _clean_message_data data in
            let message_obj := message_from_bytes E message_data in
            if truthy message_obj then
              if miss_defect && negb (bool_decide (defects message_obj = []))
              then fetch_loop limit miss_defect rest (S i) w1
              else
                match _parse_uid uid_data with
                | Raise e => (([], Some e), w1)
                | Ok uid_ =>
                    let '((ms, e), w2) :=
                      fetch_loop limit miss_defect rest (S i) w1 in
                    (({| msg_id := message_id; msg_uid := uid_;
                         msg_obj := message_obj |} :: ms, e), w2)
                end
            else fetch_loop limit miss_defect rest (S i) w1
        end
  end.

(** [data[0].decode().split(' ') if data[0] else ()]. *)
Definition message_ids (first : item) : res (list str) :=
  match first with
  | INone => Ok []
  | IBytes d =>
      if bool_decide (d = []) then Ok []
      else text ← of_option UnicodeDecodeError (Text.decode d);
           Ok (Text.split 32 text)
  | IPair _ _ => Raise AttributeError
  end.

(** [fetch(search_criteria, limit, miss_defect)], iterated to its end. *)
Definition fetch (search_criteria : str) (limit : option Z) (miss_defect : bool)
    (w : world T) : generated MailMessage_ * world T :=
  match call (Search None search_criteria) w with
  | (Raise e, w1) => (([], Some e), w1)
  | (Ok (typ, data), w1) =>
      if bool_decide (typ <> OK)
      then (([], Some (MailBoxSearchError typ data)), w1)
      else
        match data with
        | [] => (([], Some IndexError), w1)
        | first :: _ =>
            match message_ids first with
            | Raise e => (([], Some e), w1)
            | Ok ids => fetch_loop limit miss_defect ids 0 w1
            end
        end
  end.

End WithTransport.
End WithExternals.

End MailBox.

(** ** class MailMessage *)

Module MailMessage.

(** The [dict(email=..., name=..., full=...)] of an address. *)
Record Address := {
  email : str;
  name : str;
  full : str
}.

(** The pattern of [_parse_email_address]. *)
Definition address_re : Re.re :=
  Re.Seq (Re.Opt (Re.Group (u "name") (Re.Star Re.dot)))
    (Re.Group (u "email")
       (Re.Seq (Re.Chr 60) (Re.Seq (Re.Star Re.dot) (Re.Chr 62)))).

(** [_parse_email_address(address)].  A failed [re.match] gives [None], and
    [None.group] is an [AttributeError]; so is [None.strip] for a group that
    took no part. *)
Definition _parse_email_address (address : str) : res Address :=
  if Text.contains (u "<") address && Text.contains (u ">") address then
    match_ ← of_option AttributeError (Re.match_ address_re address);
    name_ ← of_option AttributeError (Re.group match_ (u "name"));
    email_ ← of_option AttributeError (Re.group match_ (u "email"));
    Ok {| name := Text.strip Text.isspace name_;
          email := Text.strip (fun c => bool_decide (c ∈ u "<>")) email_;
          full := address |}
  else
    Ok {| name := [];
          email := Text.strip Text.isspace address;
          full := Text.strip Text.isspace address |}.

Section WithExternals.
Variable E : externals.

(** [_decode_value(value, encoding)]. *)
Definition _decode_value (value : arg) (encoding : option str) : res str :=
  match value with
  | ABytes d =>
      if bool_decide (encoding ∈ [Some (u "utf-8"); None])
      then Ok (utf8_ignore E d)
      else match encoding with
           | Some enc => codec_decode E enc d
           | None => Ok (utf8_ignore E d)
           end
  | AStr s => Ok s
  end.

(** The property [to_values]. *)
Definition to_values (self : MailMessage_) : res (list Address) :=
  if has_header (unicode_db E) (u "to") (msg_obj self) then
    header ← of_option TypeError (get_header (unicode_db E) (u "to") (msg_obj self));
    match decode_header E header with
    | [] => Raise IndexError
    | (value, encoding) :: _ =>
        text ← _decode_value value encoding;
        mapM _parse_email_address (Text.split 44 text)
    end
  else Ok [].

(** The property [to]. *)
Definition to (self : MailMessage_) : res (list str) :=
  values ← to_values self;
  Ok (map email values).

(** [re.sub('[\n\r\t]+', ' ', s)]: every maximal run of line breaks and tabs
    becomes one space.  [in_run] says that the character before was part of
    a run. *)
Fixpoint sub_line_breaks (in_run : bool) (s : str) : str :=
  match s with
  | [] => []
  | c :: s' =>
      if bool_decide (c ∈ [10; 13; 9])
      then (if in_run then [] else [32]) ++ sub_line_breaks true s'
      else c :: sub_line_breaks false s'
  end.

(** The property [subject]. *)
Definition subject (self : MailMessage_) : res str :=
  if has_header (unicode_db E) (u "subject") (msg_obj self) then
    header ← of_option TypeError
               (get_header (unicode_db E) (u "subject") (msg_obj self));
    match decode_header E header with
    | [] => Raise IndexError
    | (value, encoding) :: _ => _decode_value value encoding
    end
  else Ok [].

(** The property [from_values]; [re.sub] on the [None] of a missing header
    is a [TypeError], and so is [re.sub] on a [Header]. *)
Definition from_values (self : MailMessage_) : res Address :=
  value ← of_option TypeError
            (getitem (unicode_db E) (u "from") (msg_obj self));
  match value with
  | HHeader _ => Raise TypeError
  | HStr header =>
      let from_header_cleaned := sub_line_breaks false header in
      let msg_from := decode_header E from_header_cleaned in
      parts ← mapM (fun part => _decode_value part.1 part.2) msg_from;
      _parse_email_address (concat parts)
  end.

(** The property [from_]. *)
Definition from_ (self : MailMessage_) : res str :=
  values ← from_values self;
  Ok (email values).

(** The property [date]: [str(self.obj['Date'] or '')].  A [Header] is
    never false. *)
Definition date (self : MailMessage_) : str :=
  match getitem (unicode_db E) (u "Date") (msg_obj self) with
  | Some (HStr value) => if bool_decide (value = []) then [] else value
  | Some (HHeader value) => header_str (HHeader value)
  | None => []
  end.

End WithExternals.

End MailMessage.

(** ** class MailFolderManager *)

Module MailFolderManager.

(** [folder_status_options]. *)
Definition folder_status_options : list str :=
  [u "MESSAGES"; u "RECENT"; u "UIDNEXT"; u "UIDVALIDITY"; u "UNSEEN"].

(** [if not options: options = self.folder_status_options]. *)
Definition options_or_all (options : option (list str)) : list str :=
  match options with
  | None | Some [] => folder_status_options
  | Some l => l
  end.

Section WithExternals.
Variable E : externals.

(** [_normalise_folder(folder)]. *)
Definition _normalise_folder (folder : arg) : res arg :=
  folder_ ← match folder with
            | ABytes d => of_option UnicodeDecodeError (Text.decode_ascii d)
            | AStr s => Ok s
            end;
  Ok (_quote (ABytes (imap_utf7_encode E folder_))).

Section WithTransport.
Variable T : transport.

(** [set(folder)]. *)
Definition set (folder : arg) : M T unit :=
  result ← call (Select folder);
  if bool_decide (result.1 <> OK)
  then raise (MailBoxFolderSetError result.2)
  else mret tt.

(** The token list of [status]:
    [data[0].decode().split('(')[1].split(')')[0].split(' ')]. *)
Definition status_values (data : list item) : res (list str) :=
  first ← of_option IndexError (data !! 0%nat);
  text ← match first with
         | IBytes d => of_option UnicodeDecodeError (Text.decode d)
         | INone | IPair _ _ => Raise AttributeError
         end;
  inner ← of_option IndexError (Text.split 40 text !! 1%nat);
  head ← of_option IndexError (Text.split 41 inner !! 0%nat);
  Ok (Text.split 32 head).

(** [status(folder, options)]. *)
Definition status (folder : arg) (options : option (list str))
    : M T (gmap str str) :=
  let command := u "STATUS" in
  let options := options_or_all options in
  if negb (forallb (fun i => bool_decide (i ∈ folder_status_options)) options)
  then raise (MailBoxFolderWrongStatusError options)
  else
    folder_ ← lift (_normalise_folder folder);
    '(typ, data) ← call (SimpleCommand command
                           [folder_; AStr (u "(" ++ Text.join (u " ") options ++ u ")")]);
    _ ← lift (_check_ok_status command typ data);
    '(typ, data) ← call (UntaggedResponse typ data command);
    _ ← lift (_check_ok_status command typ data);
    values ← lift (status_values data);
    lift (_pairs_to_dict values).

(** The class [[\S ]]: any character but white space other than the space. *)
Definition folder_char (c : N) : bool := negb (Text.isspace c) || (c =? 32).

(** The pattern of [list]: the group [flags], any number of characters of
    the class, between parentheses; then, each between double quotes and
    after one space, the groups [delim] and [name], one or more characters
    of the class. *)
Definition folder_item_re : Re.re :=
  Re.Seq (Re.Chr 40)
    (Re.Seq (Re.Group (u "flags") (Re.Star folder_char))
       (Re.Seq (Re.lits [41; 32; dquote])
          (Re.Seq (Re.Group (u "delim") (Re.Plus folder_char))
             (Re.Seq (Re.lits [dquote; 32; dquote])
                (Re.Seq (Re.Group (u "name") (Re.Plus folder_char))
                   (Re.Chr dquote)))))).

(** [bool(folder_item)]: [None] and empty bytes are false, a tuple is not. *)
Definition item_truthy (folder_item : item) : bool :=
  match folder_item with
  | INone => false
  | IBytes d => negb (bool_decide (d = []))
  | IPair _ _ => true
  end.

(** [folder_match.groupdict()]: every group of the pattern takes part in a
    match. *)
Definition groupdict (folder_match : Re.groups) : gmap str str :=
  list_to_map folder_match.

(** [imap_utf7.decode], applied to the item as the response holds it. *)
Variable imap_utf7_decode : item -> res str.

(** The [for] loop of [list].  A failed [re.search] gives [None], and
    [None.groupdict] is an [AttributeError]. *)
Fixpoint list_items (data : list item) : res (list (gmap str str)) :=
  match data with
  | [] => Ok []
  | folder_item :: rest =>
      if item_truthy folder_item then
        text ← imap_utf7_decode folder_item;
        folder_match ← of_option AttributeError (Re.search folder_item_re text);
        result ← list_items rest;
        Ok (groupdict folder_match :: result)
      else list_items rest
  end.

(** [list(folder, search_args, subscribed_only)]. *)
Definition list (folder : arg) (search_args : str) (subscribed_only : bool)
    : M T (list (gmap str str)) :=
  let command := if subscribed_only then u "LSUB" else u "LIST" in
  folder_ ← lift (_normalise_folder folder);
  '(typ, data) ← call (SimpleCommand command [folder_; AStr search_args]);
  '(typ, data) ← call (UntaggedResponse typ data command);
  lift (list_items data).

End WithTransport.
End WithExternals.

End MailFolderManager.

(** ** Test doubles

    Concrete collaborators for the examples: Unicode tables that are never
    consulted on ASCII text, a codec and a mail parser reduced to what the
    examples need, and a scripted server. *)

Module Double.

Definition tables : Text.unicode :=
  {| Text.uni_upper := fun s => s;
     Text.uni_lower := fun s => s;
     Text.uni_decimal := fun _ => false |}.

(** The bytes of ASCII text; other code points are dropped. *)
Definition encode_ascii (s : str) : bytes :=
  omap (fun c => if c <? 128 then Byte.of_N c else None) s.

(** A mail parser that reports one header for any non-empty input and no
    defect. *)
Definition parse_message (d : bytes) : Message :=
  {| _headers := if bool_decide (d = []) then [] else [(u "Subject", u "x")];
     defects := [];
     _payload := d |}.

Definition ext : externals :=
  {| unicode_db := tables;
     imap_utf7_encode := encode_ascii;
     message_from_bytes := parse_message;
     decode_header := fun s => [(AStr s, None)];
     codec_decode := fun _ d => of_option UnicodeDecodeError (Text.decode d);
     utf8_ignore := fun d => map Byte.to_N d |}.

(** A server with three messages that answers every command with [OK]. *)
Definition server : transport :=
  {| tstate := unit;
     tstep := fun s c =>
       match c with
       | Search _ _ => (Ok (OK, [IBytes (b "1 2 3")]), s)
       | Fetch _ _ =>
           (Ok (OK, [IPair (b "1 (UID 7 RFC822 {10}") (b "Subject: x");
                     IBytes (b ")")]), s)
       | UntaggedResponse _ _ _ =>
           (Ok (OK, [IBytes (b "INBOX (MESSAGES 3 UIDNEXT 4)")]), s)
       | _ => (Ok (OK, [INone]), s)
       end |}.

(** A server that refuses everything. *)
Definition refusing : transport :=
  {| tstate := unit;
     tstep := fun s c => (Ok (u "NO", [IBytes (b "[NONEXISTENT] Unknown Mailbox")]), s) |}.

Definition start : world server := (tt, []).

End Double.

(** ** Vocabulary of the statements *)

(** The tokens of a list taken two at a time, as the docstring of
    [_pairs_to_dict] shows them; a last token without a partner is left
    out. *)
Fixpoint adjacent_pairs (items : list str) : list (str * str) :=
  match items with
  | k :: v :: rest => (k, v) :: adjacent_pairs rest
  | _ => []
  end.

(** How many of [n] message ids the loop of [fetch] visits under [limit]. *)
Definition visited (limit : option Z) (n : nat) : nat :=
  match limit with
  | None => n
  | Some l =>
      if (l =? 0)%Z then n
      else if (l <? 0)%Z then 0%nat
      else Nat.min n (Z.to_nat l)
  end.

(** The same count for a loop that starts at index [i]. *)
Definition visited_from (limit : option Z) (i n : nat) : nat :=
  match limit with
  | None => n
  | Some l =>
      if (l =? 0)%Z then n else Nat.min n (Z.to_nat (l - Z.of_nat i))
  end.

(** The response to a FETCH gives a message that [fetch] yields: the parsed
    mail object has a header, passes the defect filter, and the fragment that
    carries the UID decodes. *)
Definition kept (E : externals) (miss_defect : bool) (data : list item) : Prop :=
  let message_obj := message_from_bytes E (MailBox._clean_message_data data).1 in
  truthy message_obj = true
  /\ (miss_defect = true -> defects message_obj = [])
  /\ is_Some (Text.decode (MailBox._clean_message_data data).2).

(** From the state [s] on, the server answers the FETCH of each id of
    [ids], asked one after the other in this order, with such a response.
    Nothing is asked of the server about other ids or in other states. *)
Inductive delivers (E : externals) (T : transport) (miss_defect : bool)
    : tstate T -> list str -> Prop :=
| delivers_none s : delivers E T miss_defect s []
| delivers_next s message_id ids typ data s' :
    tstep T s (Fetch message_id (u "(RFC822 UID)")) = (Ok (typ, data), s') ->
    kept E miss_defect data ->
    delivers E T miss_defect s' ids ->
    delivers E T miss_defect s (message_id :: ids).

(** The exception is a [MailBoxUidParamError]. *)
Definition is_uid_param_error {A} (r : res A) : Prop :=
  exists msg, r = Raise (MailBoxUidParamError msg).

(** The address of the docstring, ["Ivan Petrov" <ivan@mail.ru>], and the
    display name with its quotation marks. *)
Definition ivan_petrov : str :=
  [dquote] ++ u "Ivan Petrov" ++ [dquote] ++ u " <ivan@mail.ru>".

Definition quoted_ivan_petrov : str :=
  [dquote] ++ u "Ivan Petrov" ++ [dquote].

(** [uid] is a non-empty run of decimal digits that stands in [text] right
    after [pre], between the literals [left] and [right]. *)
Definition uid_at (U : Text.unicode) (left right text pre uid : str) : Prop :=
  exists post,
    text = pre ++ left ++ uid ++ right ++ post
    /\ uid <> []
    /\ Forall (fun c => Text.isdecimal U c = true) uid.

(** The first such place in [text]. *)
Definition first_uid (U : Text.unicode) (left right text uid : str) : Prop :=
  exists pre,
    uid_at U left right text pre uid
    /\ forall pre' uid', uid_at U left right text pre' uid' ->
                         (length pre <= length pre')%nat.

(** The two dialects of [pattern_uid_re_set]: [(UID <digits> RFC822] and
    [<digits> (RFC822]. *)
Definition uid_after_marker (U : Text.unicode) : str -> str -> Prop :=
  first_uid U (u "(UID ") (u " RFC822").

Definition uid_before_marker (U : Text.unicode) : str -> str -> Prop :=
  first_uid U [] (u " (RFC822").

Definition has_uid_after_marker (U : Text.unicode) (text : str) : Prop :=
  exists pre uid, uid_at U (u "(UID ") (u " RFC822") text pre uid.

Definition has_uid_before_marker (U : Text.unicode) (text : str) : Prop :=
  exists pre uid, uid_at U [] (u " (RFC822") text pre uid.

(** The pattern [left(?P<name>\d+)right] for literals [left] and [right]. *)
Definition uid_pattern (U : Text.unicode) (uid_name left right : str) : Re.re :=
  Re.Seq (Re.lits left)
    (Re.Seq (Re.Group uid_name (Re.Plus (Text.isdecimal U))) (Re.lits right)).

(** What a search for such a pattern finds in [text]. *)
Inductive found (U : Text.unicode) (left right text : str)
    : option Re.groups -> Prop :=
| found_uid uid :
    first_uid U left right text uid ->
    found U left right text (Some [(u "uid", uid)])
| found_nothing :
    (forall pre uid, ~ uid_at U left right text pre uid) ->
    found U left right text None.

(** A text with one [escape] put in front of every [quote] and every
    [escape] of it, and every other element copied as it is. *)
Definition escaped {A} `{EqDecision A} (quote escape : A) (s : list A) : list A :=
  flat_map (fun c => if decide (c = quote \/ c = escape) then [escape; c] else [c]) s.

(** The reader of an IMAP quoted string: the text between the two quotation
    marks, with a backslash taking the next character literally; [None] for
    text that is not one quoted string. *)
Fixpoint unquote_body {A} `{EqDecision A} (quote escape : A) (s : list A)
    : option (list A) :=
  match s with
  | [] => None
  | c :: s' =>
      if decide (c = quote) then
        match s' with [] => Some [] | _ :: _ => None end
      else if decide (c = escape) then
        match s' with
        | x :: s'' => cons x <$> unquote_body quote escape s''
        | [] => None
        end
      else cons c <$> unquote_body quote escape s'
  end.

Definition unquote (a : arg) : option arg :=
  match a with
  | AStr (c :: s) =>
      if decide (c = dquote) then AStr <$> unquote_body dquote backslash s
      else None
  | ABytes (c :: d) =>
      if decide (c = Byte.x22) then ABytes <$> unquote_body Byte.x22 Byte.x5c d
      else None
  | _ => None
  end.

(** A paired element of a response, in which imaplib delivers a literal. *)
Definition is_pair (x : item) : bool :=
  match x with
  | IPair _ _ => true
  | _ => false
  end.

(** The STORE command of [flag] for the given UIDs, flag names and value. *)
Definition store_flags (uids flags : list str) (value : bool) : command :=
  Uid (u "STORE")
    [AStr (Text.join (u ",") uids);
     AStr ((if value then u "+" else u "-") ++ u "FLAGS");
     AStr (u "(" ++ Text.join (u " ") (map (fun i => backslash :: i) flags)
           ++ u ")")].

(** The FETCH command of [fetch] for one message id. *)
Definition fetch_message (message_id : str) : command :=
  Fetch message_id (u "(RFC822 UID)").

(** No header of the message has the given name, in any capitalisation. *)
Definition lacks_header (U : Text.unicode) (name : str) (m : Message) : Prop :=
  forall k v, (k, v) ∈ _headers m -> Text.lower U k <> Text.lower U name.

(** A server that answers every FETCH, whatever the status, with a response
    that holds no paired element. *)
Definition answers_no_literal (T : transport) : Prop :=
  forall (s : tstate T) (message_id : str),
    exists typ data s',
      tstep T s (fetch_message message_id) = (Ok (typ, data), s')
      /\ Forall (fun x => is_pair x = false) data.

(** A server that holds the three messages it reports and no other. *)
Definition three_messages : transport :=
  {| tstate := unit;
     tstep := fun s c =>
       match c with
       | Search _ _ => (Ok (OK, [IBytes (b "1 2 3")]), s)
       | Fetch message_set _ =>
           if bool_decide (message_set ∈ [u "1"; u "2"; u "3"])
           then (Ok (OK, [IPair (Double.encode_ascii
                                   (message_set ++ u " (UID 7 RFC822 {10}"))
                                (b "Subject: x");
                          IBytes (b ")")]), s)
           else (Ok (u "NO", [IBytes (b "[CLIENTBUG] Invalid messageset")]), s)
       | _ => (Ok (OK, [INone]), s)
       end |}.

(** A server that finds three messages and refuses to deliver them. *)
Definition withholding : transport :=
  {| tstate := unit;
     tstep := fun s c =>
       match c with
       | Search _ _ => (Ok (OK, [IBytes (b "1 2 3")]), s)
       | _ => (Ok (u "NO", [IBytes (b "FETCH failed")]), s)
       end |}.

(** A line of a LIST response: the flags between parentheses, then the
    delimiter and the folder name, each between double quotes. *)
Definition folder_line (flags delim name : str) : str :=
  u "(" ++ flags ++ u ") " ++ dquote :: delim
  ++ dquote :: u " " ++ dquote :: name ++ [dquote].

(** The [dict] of one folder. *)
Definition folder_entry (flags delim name : str) : gmap str str :=
  <[u "name" := name]> (<[u "delim" := delim]> (<[u "flags" := flags]> ∅)).

(** Three parts the pattern of [list] can take apart again: they hold no
    white space but the space; delimiter and name are not empty and hold no
    double quote. *)
Definition folder_parts (flags delim name : str) : Prop :=
  Forall (fun c => MailFolderManager.folder_char c = true) (flags ++ delim ++ name)
  /\ delim <> [] /\ name <> []
  /\ (dquote ∉ delim) /\ (dquote ∉ name).

(** The command [list] issues. *)
Definition list_command (subscribed_only : bool) : str :=
  if subscribed_only then u "LSUB" else u "LIST".

(** A response made of such lines and of empty items, with the folders it
    lists. *)
Inductive listed (decode : item -> res str)
    : list item -> list (gmap str str) -> Prop :=
| listed_end : listed decode [] []
| listed_empty x data result :
    MailFolderManager.item_truthy x = false ->
    listed decode data result ->
    listed decode (x :: data) result
| listed_folder x flags delim name data result :
    MailFolderManager.item_truthy x = true ->
    decode x = Ok (folder_line flags delim name) ->
    folder_parts flags delim name ->
    listed decode data result ->
    listed decode (x :: data) (folder_entry flags delim name :: result).

(** How often [c] stands in [s], and how often it stands at least in any
    text that [r] matches. *)
Definition occurrences (c : N) (s : str) : nat := count_occ N.eq_dec s c.

Fixpoint least_occurrences (c : N) (r : Re.re) : nat :=
  match r with
  | Re.Chr x => if decide (x = c) then 1 else 0
  | Re.Seq r1 r2 => least_occurrences c r1 + least_occurrences c r2
  | Re.Group _ r' => least_occurrences c r'
  | Re.Eps | Re.Cls _ | Re.Star _ | Re.Plus _ | Re.Opt _ => 0
  end.

(** A codec for the examples: ASCII bytes stand for themselves. *)
Definition decode_ascii_item (x : item) : res str :=
  match x with
  | IBytes d => of_option UnicodeDecodeError (Text.decode_ascii d)
  | INone | IPair _ _ => Raise TypeError
  end.

(** A server with two folders. *)
Definition two_folders : transport :=
  {| tstate := unit;
     tstep := fun s c =>
       match c with
       | UntaggedResponse _ _ _ =>
           (Ok (OK, [IBytes (Double.encode_ascii
                               (folder_line (u "\HasNoChildren") (u "/") (u "INBOX")));
                     INone;
                     IBytes (Double.encode_ascii
                               (folder_line [] (u "/") (u "My Folder")))]), s)
       | _ => (Ok (OK, [INone]), s)
       end |}.


(** * Properties *)

(** A decidable statement about concrete values, settled by evaluation. *)
Ltac by_evaluation := apply (bool_decide_unpack _); vm_compute; exact I.

(** ** Text *)

Section TextFacts.
Context {A : Type} `{EqDecision A}.

Lemma startswith_one (c : A) (s : list A) :
  Text.startswith [c] s = true <-> exists s', s = c :: s'.
Proof.
  destruct s as [|x s']; simpl.
  - split; [discriminate | intros [? [=]]].
  - rewrite andb_true_r, bool_decide_eq_true. split.
    + intros ->. eauto.
    + intros [? [= -> _]]. reflexivity.
Qed.

Lemma contains_one (c : A) (s : list A) :
  Text.contains [c] s = true <-> c ∈ s.
Proof.
  induction s as [|x s' IH].
  - simpl. split; [discriminate | intros H0; inversion H0].
  - change (Text.contains [c] (x :: s'))
      with (Text.startswith [c] (x :: s') || Text.contains [c] s').
    rewrite orb_true_iff, startswith_one, IH, elem_of_cons. split.
    + intros [[? [= -> _]] | ?]; auto.
    + intros [-> | ?]; eauto.
Qed.

Lemma split_nonempty (sep : A) (s : list A) : Text.split sep s <> [].
Proof.
  destruct s as [|c s']; simpl; [discriminate|].
  destruct (decide (c = sep)); [discriminate|].
  destruct (Text.split sep s'); discriminate.
Qed.

(** A prefix free of the separator stays in front of the first piece. *)
Lemma split_app_free (sep : A) (pre s : list A) :
  sep ∉ pre ->
  Text.split sep (pre ++ s)
  = match Text.split sep s with
    | piece :: pieces => (pre ++ piece) :: pieces
    | [] => [pre]
    end.
Proof.
  induction pre as [|c pre IH]; intros Hfree.
  - simpl. destruct (Text.split sep s) eqn:Hs; [|reflexivity].
    by apply split_nonempty in Hs.
  - apply not_elem_of_cons in Hfree as [Hc Hpre].
    simpl. rewrite decide_False by congruence.
    rewrite (IH Hpre). destruct (Text.split sep s); reflexivity.
Qed.

Lemma split_free (sep : A) (s : list A) :
  sep ∉ s -> Text.split sep s = [s].
Proof.
  intros Hfree. rewrite <- (app_nil_r s) at 1.
  rewrite split_app_free by done. simpl. by rewrite app_nil_r.
Qed.

(** Cutting at the first separator. *)
Lemma split_at_first (sep : A) (pre s : list A) :
  sep ∉ pre ->
  Text.split sep (pre ++ sep :: s) = pre :: Text.split sep s.
Proof.
  intros Hfree. rewrite split_app_free by done.
  simpl. rewrite decide_True by done. by rewrite app_nil_r.
Qed.

End TextFacts.

(** ** MailBox: the UID-addressed operations *)

Section UidOperations.
Variable E : externals.
Variable T : transport.
Implicit Types (uid_list flag_set : pyseq) (w : world T).

(** [_uid_str] raises nothing but [MailBoxUidParamError]. *)
Lemma _uid_str_raise uid_list e :
  MailBox._uid_str uid_list = Raise e -> exists msg, e = MailBoxUidParamError msg.
Proof.
  unfold MailBox._uid_str.
  destruct (is_empty uid_list); [intros [= <-]; eauto|].
  destruct uid_list; [intros [= <-]; eauto | discriminate].
Qed.

(** A string is refused, empty or not. *)
Lemma _uid_str_str (s : str) : is_uid_param_error (MailBox._uid_str (PStr s)).
Proof.
  unfold is_uid_param_error, MailBox._uid_str.
  destruct (is_empty (PStr s)); eauto.
Qed.

Lemma _uid_str_empty uid_list :
  is_empty uid_list = true -> is_uid_param_error (MailBox._uid_str uid_list).
Proof.
  unfold is_uid_param_error, MailBox._uid_str. intros ->. eauto.
Qed.

Lemma _uid_str_list (l : list str) :
  l <> [] -> MailBox._uid_str (PList l) = Ok (Text.join (u ",") l).
Proof.
  intros Hl. unfold MailBox._uid_str. simpl.
  by rewrite bool_decide_eq_false_2.
Qed.

(** A refused UID argument stops [delete], [copy] and [move] where they
    stand. *)
Lemma delete_refused uid_list w :
  is_uid_param_error (MailBox._uid_str uid_list) ->
  exists msg, MailBox.delete T uid_list w = (Raise (MailBoxUidParamError msg), w).
Proof.
  intros [msg Hmsg]. exists msg.
  unfold MailBox.delete, mbind, M_bind, lift. by rewrite Hmsg.
Qed.

Lemma copy_refused uid_list destination_folder w :
  is_uid_param_error (MailBox._uid_str uid_list) ->
  exists msg, MailBox.copy T uid_list destination_folder w
              = (Raise (MailBoxUidParamError msg), w).
Proof.
  intros [msg Hmsg]. exists msg.
  unfold MailBox.copy, mbind, M_bind, lift. by rewrite Hmsg.
Qed.

(** [check_flags] accepts exactly the lists of standard names, and names the
    first offender otherwise. *)
Lemma check_flags_ok (names : list str) :
  Forall (fun n => Text.upper (unicode_db E) n ∈ MailBox.standard_rw_flags) names ->
  MailBox.check_flags E names = Ok tt.
Proof.
  induction 1 as [|n names Hn _ IH]; simpl; [reflexivity|].
  by rewrite bool_decide_eq_true_2.
Qed.

Lemma check_flags_raise (names : list str) :
  Exists (fun n => Text.upper (unicode_db E) n ∉ MailBox.standard_rw_flags) names ->
  exists n, (n ∈ names)
            /\ (Text.upper (unicode_db E) n ∉ MailBox.standard_rw_flags)
            /\ MailBox.check_flags E names = Raise (MailBoxWrongFlagError n).
Proof.
  induction names as [|n names IH]; intros Hex.
  { by apply Exists_nil in Hex. }
  simpl. destruct (decide (Text.upper (unicode_db E) n ∈ MailBox.standard_rw_flags))
    as [Hin|Hout].
  - apply Exists_cons in Hex as [Hbad|Hex]; [done|].
    destruct (IH Hex) as (n' & Hn' & Hbad & Hraise).
    exists n'. rewrite bool_decide_eq_true_2 by done.
    split; [apply elem_of_cons; by right|done].
  - exists n. rewrite bool_decide_eq_false_2 by done.
    split; [apply elem_of_cons; by left|done].
Qed.

Lemma flag_wrong_flag uid_list flag_set value w n :
  MailBox.check_flags E (iter flag_set) = Raise (MailBoxWrongFlagError n) ->
  MailBox.flag E T uid_list flag_set value w = (Raise (MailBoxWrongFlagError n), w).
Proof.
  intros Hraise. unfold MailBox.flag, mbind, M_bind, lift. by rewrite Hraise.
Qed.

Lemma flag_refused uid_list flag_set value w :
  MailBox.check_flags E (iter flag_set) = Ok tt ->
  is_uid_param_error (MailBox._uid_str uid_list) ->
  exists msg, MailBox.flag E T uid_list flag_set value w
              = (Raise (MailBoxUidParamError msg), w).
Proof.
  intros Hok [msg Hmsg]. exists msg.
  unfold MailBox.flag, mbind, M_bind, lift. by rewrite Hok, Hmsg.
Qed.

(** [move] never gets past the [_uid_str] of [copy]. *)
Lemma move_refused uid_list (destination_folder : str) w :
  exists msg, MailBox.move T uid_list destination_folder w
              = (Raise (MailBoxUidParamError msg), w).
Proof.
  unfold MailBox.move, mbind, M_bind, lift.
  destruct (MailBox._uid_str uid_list) as [uid_arg|e] eqn:Huid.
  - destruct (copy_refused (PStr uid_arg) destination_folder w
                (_uid_str_str uid_arg)) as [msg Hmsg].
    exists msg. unfold mbind, M_bind in Hmsg. by rewrite Hmsg.
  - apply _uid_str_raise in Huid as [msg ->]. eauto.
Qed.

(** C1 (the code departs from it).  [move] hands the joined UID string to
    [copy], whose own [_uid_str] refuses a string: for every UID argument and
    destination, [move] raises [MailBoxUidParamError] and leaves the world
    untouched, so neither UID COPY nor STORE and EXPUNGE is ever issued. *)
Theorem move_raises_before_copy uid_list (destination_folder : str) w :
  exists msg, MailBox.move T uid_list destination_folder w
              = (Raise (MailBoxUidParamError msg), w).
Proof. apply move_refused. Qed.

(** C2 (the code departs from it).  [seen] passes the bare string ['Seen'] as
    the flag set; [flag] iterates it character by character and ['S'] is no
    standard flag: for every UID argument and value, [seen] raises
    [MailBoxWrongFlagError] for the name ["S"] and issues no command. *)
Theorem seen_raises_wrong_flag uid_list (seen_val : bool) w :
  MailBox.seen E T uid_list seen_val w = (Raise (MailBoxWrongFlagError (u "S")), w).
Proof. reflexivity. Qed.

(** What [flag] does with the list [["Seen"]] that [seen] stands for: one UID
    STORE of [\Seen] on the joined UIDs, then EXPUNGE. *)
Lemma flag_seen_list (uids : list str) (value : bool) w :
  uids <> [] ->
  snd (snd (MailBox.flag E T (PList uids) (PList [u "Seen"]) value w))
  = snd w ++ [Uid (u "STORE")
                [AStr (Text.join (u ",") uids);
                 AStr ((if value then u "+" else u "-") ++ u "FLAGS");
                 AStr (u "(\Seen)")]]
      ++ match fst (tstep T (fst w)
                      (Uid (u "STORE")
                         [AStr (Text.join (u ",") uids);
                          AStr ((if value then u "+" else u "-") ++ u "FLAGS");
                          AStr (u "(\Seen)")])) with
         | Ok _ => [Expunge]
         | Raise _ => []
         end.
Proof.
  intros Hne. unfold MailBox.flag, MailBox.expunge, mbind, M_bind, lift, call.
  change (MailBox.check_flags E (iter (PList [u "Seen"]))) with (Ok tt).
  rewrite (_uid_str_list uids Hne).
  change (u "(" ++ Text.join (u " ") (map (fun i => backslash :: i) (iter (PList [u "Seen"])))
          ++ u ")") with (u "(\Seen)").
  destruct (tstep T w.1 _) as [[r|e] s1]; simpl.
  - destruct (tstep T s1 Expunge) as [[r2|e2] s2]; simpl.
    all: by rewrite <- app_assoc.
  - reflexivity.
Qed.

(** C4 (the code departs from it).  An empty UID collection or a bare
    string makes [delete], [copy] and [move] raise [MailBoxUidParamError]
    before any command is issued, and [flag] too, whenever its flag names
    are standard ones.  [seen] does not: it hands [flag] the bare string
    ['Seen'], so the flag check fails first and the caller gets
    [MailBoxWrongFlagError] for the name ["S"] where the UID argument is at
    fault.  No command is issued in either case. *)
Theorem uid_param_checked_before_network uid_list w :
  is_empty uid_list = true \/ (exists s, uid_list = PStr s) ->
  (exists msg, MailBox.delete T uid_list w = (Raise (MailBoxUidParamError msg), w))
  /\ (forall destination_folder, exists msg,
        MailBox.copy T uid_list destination_folder w
        = (Raise (MailBoxUidParamError msg), w))
  /\ (forall destination_folder, exists msg,
        MailBox.move T uid_list destination_folder w
        = (Raise (MailBoxUidParamError msg), w))
  /\ (forall flag_set value,
        Forall (fun n => Text.upper (unicode_db E) n ∈ MailBox.standard_rw_flags)
               (iter flag_set) ->
        exists msg, MailBox.flag E T uid_list flag_set value w
                    = (Raise (MailBoxUidParamError msg), w))
  /\ (forall seen_val,
        MailBox.seen E T uid_list seen_val w
        = (Raise (MailBoxWrongFlagError (u "S")), w)).
Proof.
  intros Hbad.
  assert (is_uid_param_error (MailBox._uid_str uid_list)) as Hrefused.
  { destruct Hbad as [Hempty|[s ->]];
      [by apply _uid_str_empty | apply _uid_str_str]. }
  split_and!.
  - by apply delete_refused.
  - intros destination_folder. by apply copy_refused.
  - intros destination_folder. apply move_refused.
  - intros flag_set value Hflags. apply flag_refused; [|done].
    by apply check_flags_ok.
  - intros seen_val. reflexivity.
Qed.

(** C5.  A flag set with a name whose upper-case form is not one of SEEN,
    ANSWERED, FLAGGED, DELETED, DRAFT makes [flag] raise
    [MailBoxWrongFlagError] for such a name, whatever the UID argument, and
    no command is issued. *)
Theorem flag_rejects_unknown_flag uid_list flag_set (value : bool) w :
  (exists n, (n ∈ iter flag_set)
             /\ (Text.upper (unicode_db E) n ∉ MailBox.standard_rw_flags)) ->
  exists n, (n ∈ iter flag_set)
            /\ (Text.upper (unicode_db E) n ∉ MailBox.standard_rw_flags)
            /\ MailBox.flag E T uid_list flag_set value w
               = (Raise (MailBoxWrongFlagError n), w).
Proof.
  intros (n & Hn & Hbad).
  destruct (check_flags_raise (iter flag_set)) as (n' & Hn' & Hbad' & Hraise).
  { apply Exists_exists. eauto. }
  exists n'. split_and!; [done..|]. by apply flag_wrong_flag.
Qed.

End UidOperations.

(** ** The helper [_pairs_to_dict] and [status] *)

Lemma list_pair_ind {A} (P : list A -> Prop) :
  P [] -> (forall x, P [x]) -> (forall x y l, P l -> P (x :: y :: l)) ->
  forall l, P l.
Proof.
  intros Hnil Hone Hstep l.
  cut (P l /\ forall x, P (x :: l)); [tauto|].
  induction l as [|y l [IH1 IH2]]; split; auto.
Qed.

Lemma lookup_pair {A} (pre items : list A) (k v : A) (n : nat) :
  length pre = (n * 2)%nat ->
  (pre ++ k :: v :: items) !! (n * 2)%nat = Some k
  /\ (pre ++ k :: v :: items) !! (n * 2 + 1)%nat = Some v.
Proof.
  intros Hpre. split.
  - by apply list_lookup_middle.
  - replace (pre ++ k :: v :: items) with ((pre ++ [k]) ++ v :: items)
      by (by rewrite <- app_assoc).
    apply list_lookup_middle. rewrite length_app. simpl. lia.
Qed.

(** The index arithmetic of the generator expression reads the tokens two
    at a time. *)
Lemma pairs_by_index (pre items : list str) (n : nat) :
  length pre = (n * 2)%nat ->
  (length items mod 2 = 0)%nat ->
  mapM (fun i => k ← (pre ++ items) !! (i * 2)%nat;
                 v ← (pre ++ items) !! (i * 2 + 1)%nat;
                 Some (k, v))
       (seq n (length items / 2))
  = Some (adjacent_pairs items).
Proof.
  revert pre n. induction items as [|x|k v items IH] using list_pair_ind;
    intros pre n Hpre Heven.
  - reflexivity.
  - discriminate.
  - change (length (k :: v :: items)) with (1 * 2 + length items)%nat in *.
    rewrite Nat.div_add_l by (clear; lia).
    rewrite Nat.add_comm, Nat.Div0.mod_add in Heven.
    change (seq n (1 + length items / 2))
      with (n :: seq (S n) (length items / 2)).
    cbn [mapM].
    destruct (lookup_pair pre items k v n Hpre) as [-> ->].
    cbn -[Nat.div Nat.mul Nat.add seq].
    replace (pre ++ k :: v :: items) with ((pre ++ [k; v]) ++ items)
      by (by rewrite <- app_assoc).
    rewrite (IH (pre ++ [k; v]) (S n)); [reflexivity| |done].
    rewrite length_app. simpl. clear IH. lia.
Qed.

Lemma _pairs_to_dict_even (items : list str) :
  (length items mod 2 = 0)%nat ->
  _pairs_to_dict items = Ok (dict (adjacent_pairs items)).
Proof.
  intros Heven.
  pose proof (pairs_by_index [] items 0 eq_refl Heven) as Hpairs.
  unfold _pairs_to_dict. rewrite Heven.
  change (negb (Nat.eqb 0 0)) with false. cbv iota.
  change ([] ++ items) with items in Hpairs. by rewrite Hpairs.
Qed.

Lemma _pairs_to_dict_odd (items : list str) :
  (length items mod 2 = 1)%nat ->
  _pairs_to_dict items = Raise (ValueError (u "An even-length array is expected")).
Proof. intros Hodd. unfold _pairs_to_dict. by rewrite Hodd. Qed.

Section FolderManager.
Variable E : externals.
Variable T : transport.
Implicit Types (w : world T).

(** The three [split]s of [status] cut the run between the first pair of
    parentheses into its space-separated tokens. *)
Lemma status_values_run (d : bytes) (rest : list item) (pre inner post : str) :
  Text.decode d = Some (pre ++ [40] ++ inner ++ [41] ++ post) ->
  40 ∉ pre -> 40 ∉ inner -> 41 ∉ inner ->
  MailFolderManager.status_values (IBytes d :: rest) = Ok (Text.split 32 inner).
Proof.
  intros Hdecode Hpre Hinner Hclose.
  unfold MailFolderManager.status_values, mbind, res_bind.
  cbn [lookup list_lookup of_option]. rewrite Hdecode.
  cbn [of_option app].
  rewrite split_at_first by done. cbn [lookup list_lookup].
  rewrite split_app_free by done.
  assert (exists piece pieces,
             Text.split 40 (41 :: post) = (41 :: piece) :: pieces)
    as (piece & pieces & ->).
  { cbn [Text.split]. rewrite decide_False by done.
    destruct (Text.split 40 post); eauto. }
  cbn [lookup list_lookup of_option].
  by rewrite split_at_first.
Qed.

(** [status] end to end: the options pass the check, both stages answer
    [OK], and the untagged response carries one parenthesized run. *)
Lemma status_reads_run (folder folder_ : arg) (options : option (list str)) w
    (data1 : list item) (s1 s2 : tstate T) (d : bytes) (rest : list item)
    (pre inner post : str) :
  let command := u "STATUS" in
  let options_ := MailFolderManager.options_or_all options in
  Forall (fun i => i ∈ MailFolderManager.folder_status_options) options_ ->
  MailFolderManager._normalise_folder E folder = Ok folder_ ->
  tstep T (fst w)
    (SimpleCommand command
       [folder_; AStr (u "(" ++ Text.join (u " ") options_ ++ u ")")])
  = (Ok (OK, data1), s1) ->
  tstep T s1 (UntaggedResponse OK data1 command)
  = (Ok (OK, IBytes d :: rest), s2) ->
  Text.decode d = Some (pre ++ [40] ++ inner ++ [41] ++ post) ->
  40 ∉ pre -> 40 ∉ inner -> 41 ∉ inner ->
  fst (MailFolderManager.status E T folder options w)
  = _pairs_to_dict (Text.split 32 inner).
Proof.
  intros command options_ Hopts Hfolder Hsimple Huntagged Hdecode Hpre Hinner Hclose.
  unfold MailFolderManager.status.
  fold command. fold options_.
  assert (forallb (fun i => bool_decide (i ∈ MailFolderManager.folder_status_options))
            options_ = true) as ->.
  { apply forallb_forall. intros i Hi. apply bool_decide_eq_true.
    rewrite Forall_forall in Hopts. apply Hopts. by apply list_elem_of_In. }
  cbn [negb]. unfold mbind, M_bind, lift, call.
  rewrite Hfolder, Hsimple. cbn [fst snd].
  change (_check_ok_status command OK data1) with (Ok tt : res unit).
  cbn [fst snd]. rewrite Huntagged.
  change (_check_ok_status command OK (IBytes d :: rest)) with (Ok tt : res unit).
  cbn [fst snd].
  rewrite (status_values_run d rest pre inner post) by done.
  by destruct (_pairs_to_dict (Text.split 32 inner)).
Qed.

(** C7.  [_pairs_to_dict] maps the docstring's token list to its two
    entries; an even-length list becomes the mapping of its adjacent pairs
    (a later pair with the same key wins) and an odd-length list raises
    [ValueError]; [status] applies it to the space-separated tokens of the
    parenthesized run of the response. *)
Theorem status_pairs_adjacent_tokens :
  _pairs_to_dict [u "MESSAGES"; u "3"; u "UIDNEXT"; u "4"]
  = Ok (<[u "UIDNEXT" := u "4"]> (<[u "MESSAGES" := u "3"]> ∅))
  /\ (forall items : list str,
        (length items mod 2 = 0)%nat ->
        _pairs_to_dict items = Ok (dict (adjacent_pairs items)))
  /\ (forall items : list str,
        (length items mod 2 = 1)%nat ->
        exists msg, _pairs_to_dict items = Raise (ValueError msg))
  /\ (forall (folder folder_ : arg) (options : option (list str)) w
        (data1 : list item) (s1 s2 : tstate T) (d : bytes) (rest : list item)
        (pre inner post : str),
        Forall (fun i => i ∈ MailFolderManager.folder_status_options)
               (MailFolderManager.options_or_all options) ->
        MailFolderManager._normalise_folder E folder = Ok folder_ ->
        tstep T (fst w)
          (SimpleCommand (u "STATUS")
             [folder_;
              AStr (u "(" ++ Text.join (u " ")
                               (MailFolderManager.options_or_all options)
                    ++ u ")")])
        = (Ok (OK, data1), s1) ->
        tstep T s1 (UntaggedResponse OK data1 (u "STATUS"))
        = (Ok (OK, IBytes d :: rest), s2) ->
        Text.decode d = Some (pre ++ [40] ++ inner ++ [41] ++ post) ->
        40 ∉ pre -> 40 ∉ inner -> 41 ∉ inner ->
        fst (MailFolderManager.status E T folder options w)
        = _pairs_to_dict (Text.split 32 inner)).
Proof.
  split_and!.
  - by rewrite _pairs_to_dict_even.
  - apply _pairs_to_dict_even.
  - intros items Hodd. rewrite _pairs_to_dict_odd by done. eauto.
  - intros. by eapply status_reads_run.
Qed.

(** C8 (the code departs from it).  [set] hands the folder to [select] as it
    was given: the one command issued is [Select folder], with neither the
    codec nor [_quote] applied; a status other than [OK] raises
    [MailBoxFolderSetError] with the data of the response. *)
Theorem set_selects_folder_as_given (folder : arg) w :
  snd (snd (MailFolderManager.set T folder w)) = snd w ++ [Select folder]
  /\ fst (MailFolderManager.set T folder w)
     = match fst (tstep T (fst w) (Select folder)) with
       | Ok (typ, data) =>
           if bool_decide (typ = OK) then Ok tt
           else Raise (MailBoxFolderSetError data)
       | Raise e => Raise e
       end.
Proof.
  unfold MailFolderManager.set, mbind, M_bind, call, raise, mret, M_ret.
  destruct (tstep T w.1 (Select folder)) as [[[typ data]|e] s1]; cbn [fst snd].
  - destruct (decide (typ = OK)) as [->|Hne].
    + rewrite bool_decide_eq_false_2 by (intros Hne; by apply Hne).
      by rewrite bool_decide_eq_true_2.
    + rewrite bool_decide_eq_true_2 by done.
      by rewrite bool_decide_eq_false_2.
  - done.
Qed.

End FolderManager.

(** At the folder name [My Folder]: [status] would send the quoted bytes,
    [set] sends the name bare. *)
Example set_my_folder :
  snd (snd (MailFolderManager.set Double.server (AStr (u "My Folder")) Double.start))
  = [Select (AStr (u "My Folder"))]
  /\ MailFolderManager._normalise_folder Double.ext (AStr (u "My Folder"))
     = Ok (ABytes ([Byte.x22] ++ b "My Folder" ++ [Byte.x22])).
Proof. split; reflexivity. Qed.

(** ** The regular-expression engine *)

Section Engine.
Context {R : Type}.
Implicit Types (s l : str) (g : Re.groups) (k : str -> Re.groups -> option R).

Lemma run_lits_app l s g k : Re.run (Re.lits l) (l ++ s) g k = k s g.
Proof.
  induction l as [|c l IH]; [reflexivity|].
  cbn. by rewrite N.eqb_refl.
Qed.

Lemma run_lits_inv l s g k r :
  Re.run (Re.lits l) s g k = Some r -> exists s', s = l ++ s' /\ k s' g = Some r.
Proof.
  revert s. induction l as [|c l IH]; intros s Hrun.
  - by exists s.
  - cbn in Hrun. destruct s as [|c' s]; [discriminate|].
    destruct (c' =? c) eqn:Hc; [|discriminate].
    apply N.eqb_eq in Hc as ->.
    destruct (IH s Hrun) as (s' & -> & Hk). by exists s'.
Qed.

Lemma star_stop (p : N -> bool) s (k1 : str -> option R) :
  match s with c :: _ => p c = false | [] => True end ->
  Re.star p s k1 = k1 s.
Proof. destruct s as [|c s]; [reflexivity|]. cbn. by intros ->. Qed.

Lemma star_app (p : N -> bool) (ds rest : str) (k1 : str -> option R) r :
  Forall (fun c => p c = true) ds ->
  Re.star p rest k1 = Some r ->
  Re.star p (ds ++ rest) k1 = Some r.
Proof.
  intros Hds Hrest. induction Hds as [|c ds Hc _ IH]; [done|].
  cbn. by rewrite Hc, IH.
Qed.

Lemma star_inv (p : N -> bool) s (k1 : str -> option R) r :
  Re.star p s k1 = Some r ->
  exists ds rest, s = ds ++ rest /\ Forall (fun c => p c = true) ds
                  /\ k1 rest = Some r.
Proof.
  induction s as [|c s IH]; intros Hstar.
  - by exists [], [].
  - cbn in Hstar. destruct (p c) eqn:Hc.
    + destruct (Re.star p s k1) as [r'|] eqn:Hs.
      * destruct (IH Hstar) as (ds & rest & -> & Hds & Hk).
        exists (c :: ds), rest. split_and!; [done| |done].
        by constructor.
      * by exists [], (c :: s).
    + by exists [], (c :: s).
Qed.

End Engine.

Lemma take_app_minus {A} (l1 l2 : list A) :
  take (length (l1 ++ l2) - length l2) (l1 ++ l2) = l1.
Proof.
  rewrite length_app. replace (length l1 + length l2 - length l2)%nat
    with (length l1) by lia.
  by rewrite take_app_length.
Qed.

(** Matches of [r] anywhere in the text: [search] finds the leftmost. *)
Lemma search_inv (r : Re.re) (text : str) (g : Re.groups) :
  Re.search r text = Some g ->
  exists pre s, text = pre ++ s /\ Re.match_ r s = Some g
    /\ forall pre' s', text = pre' ++ s' -> (length pre' < length pre)%nat ->
                        Re.match_ r s' = None.
Proof.
  induction text as [|c text IH]; cbn; intros Hsearch.
  - destruct (Re.match_ r []) eqn:Hm; [|discriminate].
    injection Hsearch as ->. exists [], []. split_and!; [done..|].
    intros pre' s' _ Hlt. cbn in Hlt. lia.
  - destruct (Re.match_ r (c :: text)) eqn:Hm.
    + injection Hsearch as ->. exists [], (c :: text). split_and!; [done..|].
      intros pre' s' _ Hlt. cbn in Hlt. lia.
    + destruct (IH Hsearch) as (pre & s & -> & Hmatch & Hleft).
      exists (c :: pre), s. split_and!; [done..|].
      intros pre' s' Heq Hlt. destruct pre' as [|c' pre'].
      * cbn in Heq. by subst s'.
      * injection Heq as -> Heq. apply (Hleft pre' s' Heq). cbn in Hlt. lia.
Qed.

Lemma search_none (r : Re.re) (text : str) :
  Re.search r text = None ->
  forall pre s, text = pre ++ s -> Re.match_ r s = None.
Proof.
  induction text as [|c text IH]; cbn; intros Hsearch pre s Heq.
  - destruct (Re.match_ r []) eqn:Hm; [discriminate|].
    symmetry in Heq. apply app_eq_nil in Heq as [_ ->]. done.
  - destruct (Re.match_ r (c :: text)) eqn:Hm; [discriminate|].
    destruct pre as [|c' pre].
    + cbn in Heq. by subst s.
    + injection Heq as -> Heq. by apply (IH Hsearch pre).
Qed.

Lemma search_ext (r r' : Re.re) (text : str) :
  (forall s, Re.match_ r s = Re.match_ r' s) ->
  Re.search r text = Re.search r' text.
Proof.
  intros Hext. induction text as [|c text IH]; cbn; rewrite Hext; [done|].
  by rewrite IH.
Qed.

(** ** MailBox: UID extraction *)

Section DigitRuns.
Variable U : Text.unicode.
Variables (left right : str).
Hypothesis right_starts :
  exists c right', right = c :: right' /\ Text.isdecimal U c = false.

(** Digits followed by a character that is no digit: the run is determined
    by the text. *)
Lemma digit_run_unique (ds ds' rest rest' : str) :
  Forall (fun c => Text.isdecimal U c = true) ds ->
  Forall (fun c => Text.isdecimal U c = true) ds' ->
  ds ++ right ++ rest = ds' ++ right ++ rest' -> ds = ds'.
Proof.
  destruct right_starts as (c & right' & -> & Hc).
  intros Hds. revert ds'. induction Hds as [|d ds Hd _ IH];
    intros ds' Hds' Heq; destruct Hds' as [|d' ds' Hd' Hds']; cbn in Heq.
  - done.
  - injection Heq as -> _. congruence.
  - injection Heq as -> _. congruence.
  - injection Heq as -> Heq. f_equal. by apply IH.
Qed.

Lemma uid_at_unique (text pre pre' uid uid' : str) :
  uid_at U left right text pre uid -> uid_at U left right text pre' uid' ->
  length pre = length pre' -> uid = uid'.
Proof.
  intros (post & Htext & _ & Hds) (post' & Htext' & _ & Hds') Hlen.
  rewrite Htext in Htext'. apply app_inj_1 in Htext' as [_ Heq]; [|done].
  apply app_inv_head in Heq. by eapply digit_run_unique.
Qed.

Lemma first_uid_unique (text uid uid' : str) :
  first_uid U left right text uid -> first_uid U left right text uid' ->
  uid = uid'.
Proof.
  intros (pre & Hat & Hfirst) (pre' & Hat' & Hfirst').
  apply (uid_at_unique text pre pre'); [done..|].
  apply Nat.le_antisymm; eauto.
Qed.

End DigitRuns.

Section UidPattern.
Variable U : Text.unicode.
Variables (uid_name left right : str).
Hypothesis right_starts :
  exists c right', right = c :: right' /\ Text.isdecimal U c = false.

Lemma match_uid_pattern (uid post : str) :
  uid <> [] -> Forall (fun c => Text.isdecimal U c = true) uid ->
  Re.match_ (uid_pattern U uid_name left right) (left ++ uid ++ right ++ post)
  = Some [(uid_name, uid)].
Proof.
  intros Hne Hdigits. destruct right_starts as (c & right' & Hright & Hc).
  unfold Re.match_, uid_pattern. cbn [Re.run]. rewrite run_lits_app.
  destruct uid as [|d ds]; [done|]. apply Forall_cons in Hdigits as [Hd Hds].
  cbn [app]. rewrite Hd.
  apply star_app; [done|]. rewrite star_stop by (by rewrite Hright).
  rewrite run_lits_app.
  change (d :: ds ++ right ++ post) with ((d :: ds) ++ right ++ post).
  by rewrite take_app_minus.
Qed.

Lemma match_uid_pattern_inv (s : str) (g : Re.groups) :
  Re.match_ (uid_pattern U uid_name left right) s = Some g ->
  exists uid post,
    s = left ++ uid ++ right ++ post /\ uid <> []
    /\ Forall (fun c => Text.isdecimal U c = true) uid /\ g = [(uid_name, uid)].
Proof.
  unfold Re.match_, uid_pattern. cbn [Re.run]. intros Hrun.
  apply run_lits_inv in Hrun as (s1 & -> & Hrun).
  destruct s1 as [|d s1]; [discriminate|].
  destruct (Text.isdecimal U d) eqn:Hd; [|discriminate].
  apply star_inv in Hrun as (ds & rest & -> & Hds & Hrun).
  apply run_lits_inv in Hrun as (post & -> & Hg).
  exists (d :: ds), post. split_and!; [done|done|by constructor|].
  injection Hg as <-.
  do 2 f_equal. apply (take_app_minus (d :: ds) (right ++ post)).
Qed.

Lemma search_uid_pattern (text : str) (g : Re.groups) :
  Re.search (uid_pattern U uid_name left right) text = Some g ->
  exists uid, g = [(uid_name, uid)] /\ first_uid U left right text uid.
Proof.
  intros Hsearch.
  apply search_inv in Hsearch as (pre & s & -> & Hmatch & Hleft).
  apply match_uid_pattern_inv in Hmatch as (uid & post & -> & Hne & Hds & ->).
  exists uid. split; [done|]. exists pre. split; [by exists post|].
  intros pre' uid' (post' & Heq & Hne' & Hds').
  destruct (Nat.le_gt_cases (length pre) (length pre')) as [|Hlt]; [done|].
  specialize (Hleft pre' _ Heq Hlt).
  by rewrite match_uid_pattern in Hleft.
Qed.

Lemma search_uid_pattern_none (text pre uid : str) :
  Re.search (uid_pattern U uid_name left right) text = None -> ~ uid_at U left right text pre uid.
Proof.
  intros Hsearch (post & Heq & Hne & Hds).
  pose proof (search_none _ _ Hsearch pre _ Heq) as Hnone.
  by rewrite match_uid_pattern in Hnone.
Qed.

End UidPattern.

Section ParseUid.
Variable E : externals.

Lemma marker_starts (right' : str) :
  exists c right'', 32 :: right' = c :: right'' /\ Text.isdecimal (unicode_db E) c = false.
Proof. by exists 32, right'. Qed.

Lemma search_found (left right' text : str) :
  found (unicode_db E) left (32 :: right') text
    (Re.search
       (Re.Seq (Re.lits left)
          (Re.Seq (Re.Group (u "uid") (Re.Plus (Text.isdecimal (unicode_db E))))
             (Re.lits (32 :: right'))))
       text).
Proof.
  destruct (Re.search _ text) as [g|] eqn:Hsearch.
  - apply search_uid_pattern in Hsearch as (uid & -> & Hfirst);
      [by constructor | apply marker_starts].
  - constructor. intros pre uid.
    eapply search_uid_pattern_none; [apply marker_starts | done].
Qed.

Lemma search_after_marker (text : str) :
  found (unicode_db E) (u "(UID ") (u " RFC822") text
    (Re.search
       (Re.Seq (Re.lits (u "(UID "))
          (Re.Seq (Re.Group (u "uid") (Re.Plus (Text.isdecimal (unicode_db E))))
             (Re.lits (u " RFC822"))))
       text).
Proof. apply (search_found (u "(UID ") (u "RFC822")). Qed.

Lemma search_before_marker (text : str) :
  found (unicode_db E) [] (u " (RFC822") text
    (Re.search
       (Re.Seq (Re.Group (u "uid") (Re.Plus (Text.isdecimal (unicode_db E))))
          (Re.lits (u " (RFC822")))
       text).
Proof.
  rewrite (search_ext _
             (Re.Seq (Re.lits [])
                (Re.Seq (Re.Group (u "uid") (Re.Plus (Text.isdecimal (unicode_db E))))
                   (Re.lits (u " (RFC822")))) text) by done.
  apply (search_found [] (u "(RFC822")).
Qed.

Lemma found_some_inv (left right' text : str) (g : Re.groups) :
  found (unicode_db E) left (32 :: right') text (Some g) ->
  exists uid, g = [(u "uid", uid)]
    /\ first_uid (unicode_db E) left (32 :: right') text uid
    /\ (exists pre uid', uid_at (unicode_db E) left (32 :: right') text pre uid')
    /\ (forall uid', first_uid (unicode_db E) left (32 :: right') text uid' -> uid' = uid).
Proof.
  inversion 1 as [uid Hfirst|]; subst. exists uid. split_and!; [done..| |].
  - destruct Hfirst as (pre & Hat & _). eauto.
  - intros uid' Hfirst'.
    by apply (first_uid_unique (unicode_db E) left (32 :: right') (marker_starts right') text).
Qed.

Lemma found_none_inv (left right text : str) :
  found (unicode_db E) left right text None ->
  ~ (exists pre uid, uid_at (unicode_db E) left right text pre uid)
  /\ (forall uid, ~ first_uid (unicode_db E) left right text uid).
Proof.
  inversion 1 as [|Hnone]; subst. split.
  - intros (pre & uid & Hat). by eapply Hnone.
  - intros uid (pre & Hat & _). by eapply Hnone.
Qed.

Lemma _parse_uid_with_decoded (patterns : list Re.re) (data : bytes) (text : str) :
  Text.decode data = Some text ->
  MailBox._parse_uid_with patterns data
  = match patterns with
    | [] => Ok None
    | p :: rest =>
        match Re.search p text with
        | Some m => Ok (Re.group m (u "uid"))
        | None => MailBox._parse_uid_with rest data
        end
    end.
Proof. intros Hdecode. destruct patterns; cbn; by rewrite ?Hdecode. Qed.

Lemma first_uid_has (left right text uid : str) :
  first_uid (unicode_db E) left right text uid ->
  exists pre uid', uid_at (unicode_db E) left right text pre uid'.
Proof. intros (pre & Hat & _). eauto. Qed.

(** C9, as amended.  A fragment that is not valid UTF-8 raises
    [UnicodeDecodeError].  On a fragment that decodes, [_parse_uid] returns
    exactly the digit run of the first [(UID <digits> RFC822] in the text
    or, when the text has none, of the first [<digits> (RFC822]; it returns
    [None] exactly when the text has neither; and when the text does not
    have both, trying the patterns in the other order gives the same
    answer. *)
Theorem parse_uid_extracts_digits (data : bytes) :
  match Text.decode data with
  | None => MailBox._parse_uid E data = Raise UnicodeDecodeError
  | Some text =>
      (forall uid,
         MailBox._parse_uid E data = Ok (Some uid) <->
         uid_after_marker (unicode_db E) text uid
         \/ (~ has_uid_after_marker (unicode_db E) text
             /\ uid_before_marker (unicode_db E) text uid))
      /\ (MailBox._parse_uid E data = Ok None <->
          ~ has_uid_after_marker (unicode_db E) text /\ ~ has_uid_before_marker (unicode_db E) text)
      /\ (~ (has_uid_after_marker (unicode_db E) text
             /\ has_uid_before_marker (unicode_db E) text) ->
          MailBox._parse_uid_with (rev (MailBox.pattern_uid_re_set E)) data
          = MailBox._parse_uid E data)
  end.
Proof.
  destruct (Text.decode data) as [text|] eqn:Hdecode;
    [|unfold MailBox._parse_uid; cbn; by rewrite Hdecode].
  unfold MailBox._parse_uid, MailBox.pattern_uid_re_set. cbn [rev app].
  rewrite !(_parse_uid_with_decoded _ data text Hdecode).
  unfold uid_after_marker, uid_before_marker,
    has_uid_after_marker, has_uid_before_marker.
  pose proof (search_after_marker text) as H1.
  pose proof (search_before_marker text) as H2.
  destruct (Re.search _ text) as [g1|];
    [apply found_some_inv in H1 as (uid1 & -> & Hfirst1 & Hhas1 & Huniq1)
    |apply found_none_inv in H1 as [Hno1 Hnof1]];
    (destruct (Re.search _ text) as [g2|];
     [apply found_some_inv in H2 as (uid2 & -> & Hfirst2 & Hhas2 & Huniq2)
     |apply found_none_inv in H2 as [Hno2 Hnof2]]).
  all: change (Re.group [(u "uid", ?x)] (u "uid")) with (Some x).
  all: split_and!; [intros uid; split| |].
  all: try (intuition (subst; eauto; congruence)).
  all: try (intros [= <-]; intuition eauto).
  all: intros [Hs|[Hn Hs]];
    first [ by rewrite (Huniq1 uid Hs) | by destruct (Hnof1 uid)
          | by destruct Hn | by rewrite (Huniq2 uid Hs)
          | by destruct (Hnof2 uid) ].
Qed.

End ParseUid.

(** ** MailBox: fetch *)

Lemma visited_from_zero (limit : option Z) (n : nat) :
  visited_from limit 0 n = visited limit n.
Proof.
  unfold visited_from, visited. destruct limit as [l|]; [|done].
  destruct (l =? 0)%Z; [done|].
  destruct (l <? 0)%Z eqn:Hneg; [|by rewrite Z.sub_0_r].
  apply Z.ltb_lt in Hneg. lia.
Qed.

Lemma visited_from_reached (limit : option Z) (i n : nat) :
  MailBox.limit_reached limit i = true -> visited_from limit i n = 0%nat.
Proof.
  unfold MailBox.limit_reached, visited_from. destruct limit as [l|]; [|done].
  destruct (l =? 0)%Z; [done|]. rewrite andb_true_l. intros Hle%Z.leb_le. lia.
Qed.

Lemma visited_from_step (limit : option Z) (i n : nat) :
  MailBox.limit_reached limit i = false ->
  visited_from limit i (S n) = S (visited_from limit (S i) n).
Proof.
  unfold MailBox.limit_reached, visited_from. destruct limit as [l|]; [|done].
  destruct (l =? 0)%Z; [done|]. rewrite andb_true_l. intros Hgt%Z.leb_gt. lia.
Qed.

Lemma visited_from_le (limit : option Z) (i n : nat) :
  (visited_from limit i n <= n)%nat.
Proof.
  unfold visited_from. destruct limit as [l|]; [|done].
  destruct (l =? 0)%Z; lia.
Qed.

Section Fetch.
Variable E : externals.
Variable T : transport.
Implicit Types (w : world T) (ids : list str).

Lemma _parse_uid_decoded (data : bytes) :
  is_Some (Text.decode data) -> exists uid_, MailBox._parse_uid E data = Ok uid_.
Proof.
  intros [text Hdecode]. unfold MailBox._parse_uid, MailBox.pattern_uid_re_set.
  rewrite !(_parse_uid_with_decoded _ data text Hdecode).
  repeat (destruct (Re.search _ text); eauto).
Qed.

(** Whatever the server answers, the loop yields messages for some of the
    ids it visits, in their order. *)
Lemma fetch_loop_sublist (limit : option Z) (miss_defect : bool) ids (i : nat) w :
  map msg_id (MailBox.fetch_loop E T limit miss_defect ids i w).1.1
  `sublist_of` take (visited_from limit i (length ids)) ids.
Proof.
  revert i w. induction ids as [|message_id ids IH]; intros i w; cbn [MailBox.fetch_loop].
  - by rewrite take_nil.
  - destruct (MailBox.limit_reached limit i) eqn:Hlimit; [apply sublist_nil_l|].
    cbn [length]. rewrite visited_from_step by done.
    cbn [take]. unfold call.
    destruct (tstep T w.1 _) as [[[typ data]|e] s1]; [|apply sublist_nil_l].
    destruct (MailBox._clean_message_data data) as [message_data uid_data].
    set (w1 := (s1, w.2 ++ [Fetch message_id (u "(RFC822 UID)")])).
    specialize (IH (S i) w1).
    destruct (truthy _); [|by apply sublist_cons].
    destruct (miss_defect && _); [by apply sublist_cons|].
    destruct (MailBox._parse_uid E uid_data); [|apply sublist_nil_l].
    destruct (MailBox.fetch_loop E T limit miss_defect ids (S i) w1) as [[ms e] w2].
    by apply sublist_skip.
Qed.

(** The commands of the loop: a FETCH for each id it visits before it
    ends, and for every id the limit admits when it ends without an
    exception. *)
Lemma fetch_loop_log (limit : option Z) (miss_defect : bool) ids (i : nat) w :
  exists k,
    (k <= visited_from limit i (length ids))%nat
    /\ (MailBox.fetch_loop E T limit miss_defect ids i w).2.2
       = w.2 ++ map fetch_message (take k ids)
    /\ ((MailBox.fetch_loop E T limit miss_defect ids i w).1.2 = None ->
        k = visited_from limit i (length ids)).
Proof.
  revert i w. induction ids as [|message_id ids IH]; intros i w;
    cbn [MailBox.fetch_loop].
  - exists 0%nat. split_and!; [lia|by rewrite app_nil_r|].
    intros _. unfold visited_from. destruct limit as [l|]; [|done].
    destruct (l =? 0)%Z; [done|]. cbn. lia.
  - destruct (MailBox.limit_reached limit i) eqn:Hlimit.
    { exists 0%nat. rewrite visited_from_reached by done.
      split_and!; [done|by rewrite app_nil_r|done]. }
    cbn [length]. rewrite visited_from_step by done.
    unfold call. destruct (tstep T w.1 _) as [[[typ data]|e] s1].
    2: { exists 1%nat. split_and!; [lia|done|done]. }
    destruct (MailBox._clean_message_data data) as [message_data uid_data].
    set (w1 := (s1, w.2 ++ [Fetch message_id (u "(RFC822 UID)")])).
    destruct (IH (S i) w1) as (k & Hk & Hlog & Hend).
    assert (w1.2 ++ map fetch_message (take k ids)
            = w.2 ++ map fetch_message (take (S k) (message_id :: ids))) as Hcons.
    { unfold w1. cbn [snd take map]. by rewrite <- app_assoc. }
    destruct (truthy _).
    2: { exists (S k). rewrite Hlog. split_and!; [lia|done|]. intros He. by rewrite Hend. }
    destruct (miss_defect && _).
    { exists (S k). rewrite Hlog. split_and!; [lia|done|]. intros He. by rewrite Hend. }
    destruct (MailBox._parse_uid E uid_data).
    2: { exists 1%nat. split_and!; [lia|done|done]. }
    destruct (MailBox.fetch_loop E T limit miss_defect ids (S i) w1) as [[ms e] w2].
    cbn [fst snd] in *.
    exists (S k). rewrite Hlog. split_and!; [lia|done|]. intros He. by rewrite Hend.
Qed.

(** When the server delivers the ids the limit admits, the loop yields one
    message for each of them, and ends normally. *)
Lemma fetch_loop_kept (limit : option Z) (miss_defect : bool) ids (i : nat) w :
  delivers E T miss_defect (fst w) (take (visited_from limit i (length ids)) ids) ->
  (MailBox.fetch_loop E T limit miss_defect ids i w).1.2 = None
  /\ map msg_id (MailBox.fetch_loop E T limit miss_defect ids i w).1.1
     = take (visited_from limit i (length ids)) ids.
Proof.
  revert i w.
  induction ids as [|message_id ids IH]; intros i w Hserver;
    cbn [MailBox.fetch_loop].
  - by rewrite take_nil.
  - destruct (MailBox.limit_reached limit i) eqn:Hlimit.
    { by rewrite visited_from_reached. }
    cbn [length] in Hserver |- *. rewrite visited_from_step in Hserver |- * by done.
    cbn [take] in Hserver |- *. unfold call.
    inversion Hserver as [|s0 id0 ids0 typ data s1 Hstep Hkept Hrest]; subst.
    rewrite Hstep. destruct Hkept as (Htruthy & Hdefects & Hdecode).
    destruct (MailBox._clean_message_data data) as [message_data uid_data].
    cbn [fst snd] in *.
    set (w1 := (s1, w.2 ++ [Fetch message_id (u "(RFC822 UID)")])).
    destruct (IH (S i) w1 Hrest) as [IHe IHids].
    rewrite Htruthy.
    assert (miss_defect && negb (bool_decide (defects (message_from_bytes E message_data) = []))
            = false) as ->.
    { destruct miss_defect; [|done]. by rewrite Hdefects, bool_decide_eq_true_2. }
    destruct (_parse_uid_decoded uid_data Hdecode) as [uid_ ->].
    destruct (MailBox.fetch_loop E T limit miss_defect ids (S i) w1) as [[ms e] w2].
    cbn in *. by rewrite IHids.
Qed.

(** C3, as amended.  For a search result of [n] ids, [fetch] visits the
    first [min n limit] of them when [limit] is positive, all of them when
    it is absent or zero, and none when it is negative: after the SEARCH it
    issues a FETCH for each id it visits and no other command, never one
    for an id beyond those the limit admits, and one for each of them when
    the iteration ends without an exception.  It yields messages for
    visited ids only, in the order of the search result, and exactly one per
    visited id when the server answers the FETCH of each of them with a
    message that has a header and passes the defect filter.  An empty search
    result yields nothing and costs no FETCH. *)
Theorem fetch_yields_visited_ids :
  (forall (search_criteria : str) (limit : option Z) (miss_defect : bool) w
          (d : bytes) (rest : list item) (s1 : tstate T) (text : str),
      tstep T (fst w) (Search None search_criteria)
      = (Ok (OK, IBytes d :: rest), s1) ->
      d <> [] ->
      Text.decode d = Some text ->
      let ids := Text.split 32 text in
      let n := visited limit (length ids) in
      let result := MailBox.fetch E T search_criteria limit miss_defect w in
      map msg_id result.1.1 `sublist_of` take n ids
      /\ (exists k : nat,
            (k <= n)%nat
            /\ result.2.2 = snd w ++ Search None search_criteria
                                   :: map fetch_message (take k ids)
            /\ (result.1.2 = None -> k = n))
      /\ (delivers E T miss_defect s1 (take n ids) ->
          result.1.2 = None
          /\ map msg_id result.1.1 = take n ids
          /\ length result.1.1 = n
          /\ result.2.2 = snd w ++ Search None search_criteria
                                 :: map fetch_message (take n ids)))
  /\ (forall (search_criteria : str) (limit : option Z) (miss_defect : bool) w
             (rest : list item) (s1 : tstate T),
        tstep T (fst w) (Search None search_criteria)
        = (Ok (OK, IBytes [] :: rest), s1) ->
        MailBox.fetch E T search_criteria limit miss_defect w
        = (([], None), (s1, snd w ++ [Search None search_criteria]))).
Proof.
  split.
  - intros search_criteria limit miss_defect w d rest s1 text Hsearch Hd Hdecode
      ids n result.
    assert (result = MailBox.fetch_loop E T limit miss_defect ids 0
                       (s1, w.2 ++ [Search None search_criteria])) as ->.
    { unfold result, MailBox.fetch, call. rewrite Hsearch.
      rewrite bool_decide_eq_false_2 by (intros Hne; by apply Hne).
      unfold MailBox.message_ids. rewrite bool_decide_eq_false_2 by done.
      by rewrite Hdecode. }
    destruct (fetch_loop_log limit miss_defect ids 0
                (s1, w.2 ++ [Search None search_criteria])) as (k & Hk & Hlog & Hend).
    unfold n. rewrite <- visited_from_zero.
    cbn [snd] in Hlog. rewrite <- app_assoc in Hlog. cbn [app] in Hlog.
    split_and!; [apply fetch_loop_sublist|by exists k|].
    intros Hserver.
    destruct (fetch_loop_kept limit miss_defect ids 0
                (s1, w.2 ++ [Search None search_criteria]) Hserver) as [He Hids].
    split_and!; [done..| |].
    + rewrite <- (length_map msg_id), Hids, length_take.
      pose proof (visited_from_le limit 0 (length ids)). lia.
    + by rewrite Hlog, (Hend He).
  - intros search_criteria limit miss_defect w rest s1 Hsearch.
    unfold MailBox.fetch, call. rewrite Hsearch.
    by rewrite bool_decide_eq_false_2 by (intros Hne; by apply Hne).
Qed.

End Fetch.

(** ** MailMessage *)

Section Recipients.
Variable E : externals.

Lemma has_header_false (name_ : str) (m : Message) :
  (forall k v, (k, v) ∈ _headers m ->
     Text.lower (unicode_db E) k <> Text.lower (unicode_db E) name_) ->
  has_header (unicode_db E) name_ m = false.
Proof.
  intros Hnone. unfold has_header.
  destruct (existsb _ _) eqn:Hex; [|reflexivity].
  apply existsb_exists in Hex as ([k v] & Hin & Heq).
  apply bool_decide_eq_true in Heq.
  destruct (Hnone k v); [by apply list_elem_of_In | done].
Qed.

(** C10.  A message none of whose headers is named [To], in any
    capitalisation, has no recipients: [to_values] and [to] return the empty
    list and raise nothing. *)
Theorem no_to_header_no_recipients (self : MailMessage_) :
  (forall k v, (k, v) ∈ _headers (msg_obj self) ->
     Text.lower (unicode_db E) k <> u "to") ->
  MailMessage.to_values E self = Ok [] /\ MailMessage.to E self = Ok [].
Proof.
  intros Hnone.
  assert (MailMessage.to_values E self = Ok []) as Hvalues.
  { unfold MailMessage.to_values. by rewrite (has_header_false (u "to")). }
  split; [done|]. unfold MailMessage.to. by rewrite Hvalues.
Qed.

End Recipients.

(** C6, as amended.  The address of the docstring parses into the e-mail
    between the angle brackets, the name in front of them with its quotation
    marks kept, and the whole input as [full]; an address that does not hold
    both [<] and [>] gets an empty name, and the input stripped of
    surrounding white space as both [email] and [full]. *)
Theorem parse_email_address_forms :
  MailMessage._parse_email_address ivan_petrov
  = Ok {| MailMessage.email := u "ivan@mail.ru";
          MailMessage.name := quoted_ivan_petrov;
          MailMessage.full := ivan_petrov |}
  /\ forall address : str,
       ~ (60 ∈ address /\ 62 ∈ address) ->
       MailMessage._parse_email_address address
       = Ok {| MailMessage.email := Text.strip Text.isspace address;
               MailMessage.name := [];
               MailMessage.full := Text.strip Text.isspace address |}.
Proof.
  split; [reflexivity|].
  intros address Hform. unfold MailMessage._parse_email_address.
  destruct (Text.contains (u "<") address) eqn:Hlt;
    destruct (Text.contains (u ">") address) eqn:Hgt; try reflexivity.
  destruct Hform. split; by apply contains_one.
Qed.

(** With both characters but no bracketed part, the pattern does not match
    and the method fails on [None]. *)
Example parse_email_address_no_match :
  MailMessage._parse_email_address (u "> <") = Raise AttributeError.
Proof. reflexivity. Qed.

(** ** The statements at concrete inputs *)

(** C3, the statement as claimed fails: the search result holds three ids and
    nothing limits an unbounded [fetch], which yields three messages; with
    the limit -1 it yields none and issues no FETCH. *)
Lemma fetch_negative_limit :
  length (MailBox.fetch Double.ext Double.server (u "ALL") None true Double.start).1.1
  = 3%nat
  /\ MailBox.fetch Double.ext Double.server (u "ALL") (Some (-1)%Z) true Double.start
     = (([], None), (tt, [Search None (u "ALL")])).
Proof. split; reflexivity. Qed.

(** C3 at a server that holds exactly the three messages it reports, with
    the limit 2: two FETCH commands, two messages, in the order of the
    search result. *)
Lemma fetch_yields_visited_ids_witness :
  (MailBox.fetch Double.ext three_messages (u "ALL") (Some 2%Z) true (tt, [])).1.2
  = None
  /\ map msg_id
       (MailBox.fetch Double.ext three_messages (u "ALL") (Some 2%Z) true
          (tt, [])).1.1
     = [u "1"; u "2"]
  /\ length
       (MailBox.fetch Double.ext three_messages (u "ALL") (Some 2%Z) true
          (tt, [])).1.1
     = 2%nat
  /\ (MailBox.fetch Double.ext three_messages (u "ALL") (Some 2%Z) true
        (tt, [])).2.2
     = [Search None (u "ALL"); fetch_message (u "1"); fetch_message (u "2")].
Proof.
  apply (proj1 (fetch_yields_visited_ids Double.ext three_messages)
           (u "ALL") (Some 2%Z) true (tt, [])
           (b "1 2 3") [] tt (u "1 2 3") eq_refl).
  - discriminate.
  - reflexivity.
  - apply (delivers_next Double.ext three_messages true tt (u "1") [u "2"] OK
             [IPair (b "1 (UID 7 RFC822 {10}") (b "Subject: x"); IBytes (b ")")]
             tt eq_refl).
    { split_and!; [reflexivity | reflexivity | by eexists]. }
    apply (delivers_next Double.ext three_messages true tt (u "2") [] OK
             [IPair (b "2 (UID 7 RFC822 {10}") (b "Subject: x"); IBytes (b ")")]
             tt eq_refl).
    { split_and!; [reflexivity | reflexivity | by eexists]. }
    apply delivers_none.
Defined.

(** C4 at the empty UID list: [delete] and [flag] with the list [["Seen"]]
    raise [MailBoxUidParamError], and [seen], which stands for that call of
    [flag], raises [MailBoxWrongFlagError]. *)
Lemma uid_param_checked_before_network_witness :
  (exists msg, MailBox.delete Double.server (PList []) Double.start
               = (Raise (MailBoxUidParamError msg), Double.start))
  /\ (exists msg, MailBox.flag Double.ext Double.server (PList [])
                    (PList [u "Seen"]) true Double.start
                  = (Raise (MailBoxUidParamError msg), Double.start))
  /\ MailBox.seen Double.ext Double.server (PList []) true Double.start
     = (Raise (MailBoxWrongFlagError (u "S")), Double.start).
Proof.
  destruct (uid_param_checked_before_network Double.ext Double.server
              (PList []) Double.start) as (Hdelete & _ & _ & Hflag & Hseen).
  - left. reflexivity.
  - split_and!; [exact Hdelete| |exact (Hseen true)]. apply Hflag.
    repeat constructor; by_evaluation.
Defined.

Lemma flag_rejects_unknown_flag_witness :
  exists n, (n ∈ [u "Seen"; u "Bogus"])
    /\ (Text.upper Double.tables n ∉ MailBox.standard_rw_flags)
    /\ MailBox.flag Double.ext Double.server (PList [u "7"]) (PList [u "Seen"; u "Bogus"])
         false Double.start
       = (Raise (MailBoxWrongFlagError n), Double.start).
Proof.
  apply (flag_rejects_unknown_flag Double.ext Double.server
           (PList [u "7"]) (PList [u "Seen"; u "Bogus"]) false Double.start).
  exists (u "Bogus"). split; by_evaluation.
Defined.

(** C6, the statement as claimed fails: the name parsed from the address of
    the docstring is 13 characters long, the quotation marks included, and
    is not the 11 characters of [Ivan Petrov]. *)
Lemma parsed_name_keeps_quotes :
  MailMessage.name <$> MailMessage._parse_email_address ivan_petrov
  = Ok quoted_ivan_petrov
  /\ length quoted_ivan_petrov = 13%nat
  /\ length (u "Ivan Petrov") = 11%nat.
Proof. split_and!; reflexivity. Qed.

Lemma parse_email_address_forms_witness :
  MailMessage._parse_email_address (u " ivan@mail.ru ")
  = Ok {| MailMessage.email := u "ivan@mail.ru";
          MailMessage.name := [];
          MailMessage.full := u "ivan@mail.ru" |}.
Proof.
  apply (proj2 parse_email_address_forms (u " ivan@mail.ru ")).
  intros [Hlt _]. revert Hlt. by_evaluation.
Defined.

Lemma status_pairs_adjacent_tokens_witness :
  (exists msg, _pairs_to_dict [u "MESSAGES"; u "3"; u "UIDNEXT"]
               = Raise (ValueError msg))
  /\ fst (MailFolderManager.status Double.ext Double.server (AStr (u "INBOX"))
            (Some [u "MESSAGES"; u "UIDNEXT"]) Double.start)
     = _pairs_to_dict [u "MESSAGES"; u "3"; u "UIDNEXT"; u "4"].
Proof.
  destruct (status_pairs_adjacent_tokens Double.ext Double.server)
    as (_ & _ & Hodd & Hstatus).
  split.
  - apply Hodd. reflexivity.
  - apply (Hstatus (AStr (u "INBOX"))
             (ABytes ([Byte.x22] ++ b "INBOX" ++ [Byte.x22]))
             (Some [u "MESSAGES"; u "UIDNEXT"]) Double.start
             [INone] tt tt (b "INBOX (MESSAGES 3 UIDNEXT 4)") []
             (u "INBOX ") (u "MESSAGES 3 UIDNEXT 4") []).
    + repeat constructor; by_evaluation.
    + reflexivity.
    + reflexivity.
    + reflexivity.
    + reflexivity.
    + by_evaluation.
    + by_evaluation.
    + by_evaluation.
Defined.

(** C9, the statement as claimed fails: the one-byte fragment [0xFF] matches
    no pattern, and [_parse_uid] raises instead of returning [None]. *)
Lemma parse_uid_undecodable :
  MailBox._parse_uid Double.ext [Byte.xff] = Raise UnicodeDecodeError.
Proof. reflexivity. Qed.

Lemma parse_uid_extracts_digits_witness :
  uid_after_marker Double.tables (u "1 (UID 4517 RFC822 {123}") (u "4517")
  \/ (~ has_uid_after_marker Double.tables (u "1 (UID 4517 RFC822 {123}")
      /\ uid_before_marker Double.tables (u "1 (UID 4517 RFC822 {123}") (u "4517")).
Proof.
  apply (proj1 (parse_uid_extracts_digits Double.ext (b "1 (UID 4517 RFC822 {123}"))
           (u "4517")).
  reflexivity.
Defined.

Lemma no_to_header_no_recipients_witness :
  MailMessage.to_values Double.ext
    {| msg_id := u "1"; msg_uid := Some (u "7");
       msg_obj := Double.parse_message (b "Subject: x") |} = Ok []
  /\ MailMessage.to Double.ext
       {| msg_id := u "1"; msg_uid := Some (u "7");
          msg_obj := Double.parse_message (b "Subject: x") |} = Ok [].
Proof.
  apply (no_to_header_no_recipients Double.ext).
  intros k v Hin. apply list_elem_of_singleton in Hin as [= -> ->].
  by_evaluation.
Defined.

(** ** More on the module-level helpers *)

Section Quote.
Context {A : Type} `{EqDecision A}.
Variables (quote escape : A).
Hypothesis quote_escape : quote <> escape.

Lemma unquote_body_escaped (s rest : list A) :
  unquote_body quote escape
    (Text.replace quote [escape; quote]
       (Text.replace escape [escape; escape] s) ++ quote :: rest)
  = match rest with [] => Some s | _ :: _ => None end.
Proof.
  induction s as [|c s IH]; cbn [Text.replace flat_map app].
  - cbn. rewrite decide_True by done. by destruct rest.
  - fold (Text.replace escape [escape; escape] s).
    destruct (decide (c = escape)) as [->|Hesc].
    + cbn [Text.replace flat_map app].
      rewrite !(decide_False (P := escape = quote)) by done.
      fold (Text.replace quote [escape; quote] (Text.replace escape [escape; escape] s)).
      cbn [app unquote_body].
      rewrite (decide_False (P := escape = quote)) by done.
      rewrite decide_True by done.
      rewrite IH. by destruct rest.
    + cbn [Text.replace flat_map app].
      fold (Text.replace quote [escape; quote] (Text.replace escape [escape; escape] s)).
      destruct (decide (c = quote)) as [->|Hq].
      * cbn [app unquote_body].
        rewrite (decide_False (P := escape = quote)) by done.
        rewrite decide_True by done. rewrite IH. by destruct rest.
      * cbn [app unquote_body].
        rewrite !decide_False by done. rewrite IH. by destruct rest.
Qed.

Lemma replace_twice (s : list A) :
  Text.replace quote [escape; quote] (Text.replace escape [escape; escape] s)
  = escaped quote escape s.
Proof.
  induction s as [|c s IH]; [done|].
  unfold Text.replace, escaped in *. cbn [flat_map]. rewrite flat_map_app, IH.
  f_equal. destruct (decide (c = escape)) as [->|Hescape].
  - cbn. rewrite decide_False by done.
    by rewrite (decide_True (P := escape = quote \/ escape = escape)) by tauto.
  - cbn. rewrite app_nil_r. destruct (decide (c = quote)) as [->|Hquote].
    + by rewrite (decide_True (P := quote = quote \/ quote = escape)) by tauto.
    + by rewrite decide_False by tauto.
Qed.

End Quote.

Lemma unquote_quote (a : arg) : unquote (_quote a) = Some a.
Proof.
  destruct a as [s|d]; cbn [_quote unquote app].
  - rewrite decide_True by done.
    by rewrite (unquote_body_escaped dquote backslash) by done.
  - rewrite decide_True by done.
    by rewrite (unquote_body_escaped Byte.x22 Byte.x5c) by done.
Qed.

Lemma _quote_inj (a a' : arg) : _quote a = _quote a' -> a = a'.
Proof.
  intros Heq. apply (f_equal unquote) in Heq.
  rewrite !unquote_quote in Heq. by injection Heq.
Qed.

(** X1.  [_quote] puts its argument, a [str] or [bytes], between double
    quotes with one backslash in front of every backslash and every double
    quote and every other character copied as it is: the second [replace]
    leaves alone what the first has written.  The result reads back as the
    argument when a backslash is taken to escape the character after it. *)
Theorem quote_round_trip (a : arg) :
  _quote a
  = match a with
    | AStr s => AStr ([dquote] ++ escaped dquote backslash s ++ [dquote])
    | ABytes d => ABytes ([Byte.x22] ++ escaped Byte.x22 Byte.x5c d ++ [Byte.x22])
    end
  /\ unquote (_quote a) = Some a.
Proof.
  split; [|apply unquote_quote].
  destruct a as [s|d]; unfold _quote; by rewrite replace_twice.
Qed.

Section Dict.
Implicit Types (pairs : list (str * str)) (m : gmap str str).

Lemma dict_snoc pairs (k v : str) :
  dict (pairs ++ [(k, v)]) = <[k := v]> (dict pairs).
Proof. unfold dict. by rewrite foldl_app. Qed.

(** The entry of a key is the value of its last pair. *)
Lemma dict_lookup_Some pairs (k v : str) :
  dict pairs !! k = Some v <->
  exists before after, pairs = before ++ (k, v) :: after /\ k ∉ after.*1.
Proof.
  induction pairs as [|[k' v'] pairs IH] using rev_ind.
  - change (dict []) with (∅ : gmap str str). split; [by rewrite lookup_empty|].
    intros (before & after & Heq & _). by destruct before.
  - rewrite dict_snoc. destruct (decide (k' = k)) as [->|Hne].
    + rewrite lookup_insert_eq. split.
      * intros [= ->]. exists pairs, []. split; [done|]. apply not_elem_of_nil.
      * intros (before & after & Heq & Hlast).
        destruct after as [|p after _] using rev_ind.
        { apply app_inj_tail in Heq as [_ [= ->]]. done. }
        rewrite app_comm_cons, app_assoc in Heq.
        apply app_inj_tail in Heq as [_ <-].
        destruct Hlast. rewrite fmap_app. apply elem_of_app. right.
        by apply list_elem_of_singleton.
    + rewrite lookup_insert_ne by done. rewrite IH. split.
      * intros (before & after & -> & Hlast).
        exists before, (after ++ [(k', v')]). split; [by rewrite <- app_assoc|].
        rewrite fmap_app. intros [?|Hk%list_elem_of_singleton]%elem_of_app; [done|].
        by apply Hne.
      * intros (before & after & Heq & Hlast).
        destruct after as [|p after _] using rev_ind.
        { apply app_inj_tail in Heq as [_ [= -> _]]. done. }
        rewrite app_comm_cons, app_assoc in Heq.
        apply app_inj_tail in Heq as [-> <-].
        exists before, after. split; [done|].
        intros Hin. apply Hlast. rewrite fmap_app. apply elem_of_app. by left.
Qed.

Lemma dict_lookup_None pairs (k : str) :
  dict pairs !! k = None <-> k ∉ pairs.*1.
Proof.
  induction pairs as [|[k' v'] pairs IH] using rev_ind.
  - change (dict []) with (∅ : gmap str str).
    split; [intros _; apply not_elem_of_nil | by rewrite lookup_empty].
  - rewrite dict_snoc, fmap_app. cbn [fmap list_fmap fst].
    rewrite elem_of_app, list_elem_of_singleton.
    destruct (decide (k' = k)) as [->|Hne].
    + rewrite lookup_insert_eq. split; [done|]. intros Hnot. destruct Hnot. by right.
    + rewrite lookup_insert_ne by done. rewrite IH. cbn. split.
      * intros Hnot [?|?]; [done|]. by apply Hne.
      * intros Hnot Hin. apply Hnot. by left.
Qed.

End Dict.

Lemma _pairs_to_dict_Ok (items : list str) (m : gmap str str) :
  _pairs_to_dict items = Ok m -> m = dict (adjacent_pairs items).
Proof.
  destruct (Nat.eq_dec (length items mod 2)%nat 0%nat) as [Heven|Hodd].
  - rewrite _pairs_to_dict_even by done. by intros [= <-].
  - unfold _pairs_to_dict.
    destruct (length items mod 2)%nat as [|n]; [done|]. discriminate.
Qed.

(** X2.  In the mapping [_pairs_to_dict] returns, a key has the value that
    follows its last occurrence as a key in the token list, and a token that
    is no key of a pair has no entry. *)
Theorem pairs_to_dict_lookup (items : list str) (m : gmap str str) (k : str) :
  _pairs_to_dict items = Ok m ->
  (forall v, m !! k = Some v <->
     exists before after,
       adjacent_pairs items = before ++ (k, v) :: after /\ k ∉ after.*1)
  /\ (m !! k = None <-> k ∉ (adjacent_pairs items).*1).
Proof.
  intros Hm. apply _pairs_to_dict_Ok in Hm. subst m. split.
  - intros v. apply dict_lookup_Some.
  - apply dict_lookup_None.
Qed.

(** ** More on MailBox *)

Lemma _clean_message_data_app (l1 l2 : list item) :
  MailBox._clean_message_data (l1 ++ l2)
  = foldl (fun acc x =>
             match x with
             | IBytes d => if Text.contains (b "(FLAGS") d then acc else acc
             | IPair d0 d1 => (d1, d0)
             | INone => acc
             end)
          (MailBox._clean_message_data l1) l2.
Proof. unfold MailBox._clean_message_data. by rewrite foldl_app. Qed.

Lemma clean_no_pair (acc : bytes * bytes) (l : list item) :
  Forall (fun x => is_pair x = false) l ->
  foldl (fun acc x =>
           match x with
           | IBytes d => if Text.contains (b "(FLAGS") d then acc else acc
           | IPair d0 d1 => (d1, d0)
           | INone => acc
           end) acc l = acc.
Proof.
  intros Hl. revert acc. induction Hl as [|x l Hx _ IH]; intros acc; [done|].
  cbn [foldl]. destruct x as [|d|d0 d1]; [apply IH| |done].
  destruct (Text.contains _ d); apply IH.
Qed.

(** X3.  [_clean_message_data] returns the message bytes and the UID fragment
    of the last paired element of the response, whatever stands around it,
    and two empty byte strings when the response has no paired element. *)
Theorem clean_message_data_last_pair :
  (forall data : list item,
     Forall (fun x => is_pair x = false) data ->
     MailBox._clean_message_data data = ([], []))
  /\ (forall (before after : list item) (uid_data message_data : bytes),
        Forall (fun x => is_pair x = false) after ->
        MailBox._clean_message_data (before ++ IPair uid_data message_data :: after)
        = (message_data, uid_data)).
Proof.
  split.
  - intros data Hdata. by apply (clean_no_pair ([], [])).
  - intros before after uid_data message_data Hafter.
    rewrite _clean_message_data_app. cbn [foldl]. by apply clean_no_pair.
Qed.

Section SplitJoin.
Context {A : Type} `{EqDecision A}.

(** Joining with a separator that the pieces do not contain, and splitting
    again, gives the pieces back. *)
Lemma split_join (sep : A) (parts : list (list A)) :
  parts <> [] ->
  Forall (fun p => sep ∉ p) parts ->
  Text.split sep (Text.join [sep] parts) = parts.
Proof.
  intros Hne Hfree. induction Hfree as [|p parts Hp Hparts IH]; [done|].
  destruct parts as [|q parts].
  - cbn. by apply split_free.
  - change (Text.join [sep] (p :: q :: parts))
      with (p ++ sep :: Text.join [sep] (q :: parts)).
    rewrite split_at_first by done. by rewrite IH.
Qed.

End SplitJoin.

(** X4.  For a non-empty list of UIDs none of which holds a comma,
    [_uid_str] returns a string that splits at its commas into exactly the
    UIDs given, in their order. *)
Theorem uid_str_round_trip (uids : list str) :
  uids <> [] ->
  Forall (fun uid_ => 44 ∉ uid_) uids ->
  exists uid_arg,
    MailBox._uid_str (PList uids) = Ok uid_arg
    /\ Text.split 44 uid_arg = uids.
Proof.
  intros Hne Hfree. exists (Text.join (u ",") uids).
  split; [by apply _uid_str_list|]. by apply (split_join 44).
Qed.

Lemma pairs_to_dict_lookup_witness :
  dict (adjacent_pairs [u "MESSAGES"; u "3"; u "UIDNEXT"; u "4"; u "MESSAGES"; u "5"])
    !! u "MESSAGES" = Some (u "5").
Proof.
  apply (proj1 (pairs_to_dict_lookup
                  [u "MESSAGES"; u "3"; u "UIDNEXT"; u "4"; u "MESSAGES"; u "5"]
                  _ (u "MESSAGES")
                  (_pairs_to_dict_even
                     [u "MESSAGES"; u "3"; u "UIDNEXT"; u "4"; u "MESSAGES"; u "5"]
                     eq_refl))
           (u "5")).
  exists [(u "MESSAGES", u "3"); (u "UIDNEXT", u "4")], [].
  split; [reflexivity | apply not_elem_of_nil].
Defined.

Lemma clean_message_data_last_pair_witness :
  MailBox._clean_message_data
    ([IBytes (b "1 (FLAGS (\Seen))")]
     ++ IPair (b "1 (UID 7 RFC822 {10}") (b "Subject: x") :: [IBytes (b ")")])
  = (b "Subject: x", b "1 (UID 7 RFC822 {10}").
Proof.
  apply (proj2 clean_message_data_last_pair). by repeat constructor.
Defined.

Lemma uid_str_round_trip_witness :
  exists uid_arg,
    MailBox._uid_str (PList [u "1"; u "2"]) = Ok uid_arg
    /\ Text.split 44 uid_arg = [u "1"; u "2"].
Proof.
  apply uid_str_round_trip; [discriminate|].
  repeat constructor; by_evaluation.
Defined.

Section MoreUidOperations.
Variable E : externals.
Variable T : transport.
Implicit Types (w : world T).

(** X5.  With a non-empty UID list and standard flag names, [flag] issues one
    UID STORE that adds or removes the flags as they were written, and then
    EXPUNGE whatever status the STORE came back with; only an exception of
    the transport on STORE keeps EXPUNGE from being issued.  The result is
    the pair of raw responses. *)
Theorem flag_stores_then_expunges (uids flags : list str) (value : bool) w :
  uids <> [] ->
  Forall (fun n => Text.upper (unicode_db E) n ∈ MailBox.standard_rw_flags) flags ->
  MailBox.flag E T (PList uids) (PList flags) value w
  = match tstep T (fst w) (store_flags uids flags value) with
    | (Raise e, s1) => (Raise e, (s1, snd w ++ [store_flags uids flags value]))
    | (Ok store_result, s1) =>
        (match fst (tstep T s1 Expunge) with
         | Ok expunge_result => Ok (store_result, expunge_result)
         | Raise e => Raise e
         end,
         (snd (tstep T s1 Expunge),
          snd w ++ [store_flags uids flags value; Expunge]))
    end.
Proof.
  intros Hne Hflags.
  unfold MailBox.flag, MailBox.expunge, mbind, M_bind, lift, call.
  change (iter (PList flags)) with flags.
  rewrite (check_flags_ok E flags Hflags), (_uid_str_list uids Hne).
  fold (store_flags uids flags value).
  destruct (tstep T w.1 (store_flags uids flags value)) as [[r|e] s1]; cbn [fst snd].
  - destruct (tstep T s1 Expunge) as [[r2|e2] s2]; cbn [fst snd];
      by rewrite <- app_assoc.
  - done.
Qed.

(** X6.  [delete] does what [flag] does with the one flag [Deleted] and the
    value [True]: the same checks, the same commands, the same result. *)
Theorem delete_is_flag_deleted (uid_list : pyseq) w :
  MailBox.delete T uid_list w
  = MailBox.flag E T uid_list (PList [u "Deleted"]) true w.
Proof. reflexivity. Qed.

End MoreUidOperations.

Lemma flag_stores_then_expunges_witness :
  MailBox.flag Double.ext Double.refusing (PList [u "4"; u "7"])
    (PList [u "Seen"; u "flagged"]) false (tt, [])
  = (Ok ((u "NO", [IBytes (b "[NONEXISTENT] Unknown Mailbox")]),
         (u "NO", [IBytes (b "[NONEXISTENT] Unknown Mailbox")])),
     (tt, [store_flags [u "4"; u "7"] [u "Seen"; u "flagged"] false; Expunge])).
Proof.
  rewrite (flag_stores_then_expunges Double.ext Double.refusing
             [u "4"; u "7"] [u "Seen"; u "flagged"] false (tt, [])).
  - reflexivity.
  - discriminate.
  - repeat constructor; by_evaluation.
Defined.

(** ** More on fetch *)

Section MoreFetch.
Variable E : externals.
Variable T : transport.
Implicit Types (w : world T) (ids : list str).

Lemma fetch_loop_yields_kept (limit : option Z) (miss_defect : bool) ids (i : nat) w :
  Forall (fun m => truthy (msg_obj m) = true
                   /\ (miss_defect = true -> defects (msg_obj m) = []))
         (MailBox.fetch_loop E T limit miss_defect ids i w).1.1.
Proof.
  revert i w. induction ids as [|message_id ids IH]; intros i w;
    cbn [MailBox.fetch_loop]; [by constructor|].
  destruct (MailBox.limit_reached limit i); [by constructor|].
  unfold call. destruct (tstep T w.1 _) as [[[typ data]|e] s1]; [|by constructor].
  destruct (MailBox._clean_message_data data) as [message_data uid_data].
  set (w1 := (s1, w.2 ++ [Fetch message_id (u "(RFC822 UID)")])).
  specialize (IH (S i) w1).
  destruct (truthy _) eqn:Htruthy; [|done].
  destruct (miss_defect && _) eqn:Hskip; [done|].
  destruct (MailBox._parse_uid E uid_data); [|by constructor].
  destruct (MailBox.fetch_loop E T limit miss_defect ids (S i) w1) as [[ms e] w2].
  constructor; [|done]. cbn [msg_obj]. split; [done|].
  intros ->. cbn in Hskip. apply negb_false_iff in Hskip.
  by apply bool_decide_eq_true in Hskip.
Qed.

(** X7.  Every message [fetch] yields has a mail object with at least one
    header, and with [miss_defect] set a mail object without defects,
    whatever the server answers. *)
Theorem fetch_yields_only_kept (search_criteria : str) (limit : option Z)
    (miss_defect : bool) w :
  Forall (fun m => truthy (msg_obj m) = true
                   /\ (miss_defect = true -> defects (msg_obj m) = []))
         (MailBox.fetch E T search_criteria limit miss_defect w).1.1.
Proof.
  unfold MailBox.fetch, call.
  destruct (tstep T w.1 _) as [[[typ data]|e] s1]; [|by constructor].
  destruct (bool_decide (typ <> OK)); [by constructor|].
  destruct data as [|first rest]; [by constructor|].
  destruct (MailBox.message_ids first); [|by constructor].
  apply fetch_loop_yields_kept.
Qed.

(** X8.  A SEARCH that does not come back with [OK] ends [fetch] with
    [MailBoxSearchError] carrying the status and the data; nothing is yielded
    and no FETCH is issued. *)
Theorem fetch_search_refused (search_criteria : str) (limit : option Z)
    (miss_defect : bool) w (typ : str) (data : list item) (s1 : tstate T) :
  tstep T (fst w) (Search None search_criteria) = (Ok (typ, data), s1) ->
  typ <> OK ->
  MailBox.fetch E T search_criteria limit miss_defect w
  = (([], Some (MailBoxSearchError typ data)),
     (s1, snd w ++ [Search None search_criteria])).
Proof.
  intros Hsearch Htyp. unfold MailBox.fetch, call. rewrite Hsearch.
  by rewrite bool_decide_eq_true_2.
Qed.

(** X9.  After the SEARCH, [fetch] issues nothing but FETCH commands for
    [(RFC822 UID)], one for each of the first [k] ids of the result in their
    order, where [k] is at most the number of ids the limit lets it visit,
    and is that number when the iteration ends without an exception. *)
Theorem fetch_issues_limited_fetches (search_criteria : str) (limit : option Z)
    (miss_defect : bool) w (d : bytes) (rest : list item) (s1 : tstate T)
    (text : str) :
  tstep T (fst w) (Search None search_criteria)
  = (Ok (OK, IBytes d :: rest), s1) ->
  d <> [] ->
  Text.decode d = Some text ->
  exists k,
    (k <= visited limit (length (Text.split 32%N text)))%nat
    /\ (MailBox.fetch E T search_criteria limit miss_defect w).2.2
       = snd w ++ Search None search_criteria
                  :: map fetch_message (take k (Text.split 32%N text))
    /\ ((MailBox.fetch E T search_criteria limit miss_defect w).1.2 = None ->
        k = visited limit (length (Text.split 32%N text))).
Proof.
  intros Hsearch Hd Hdecode.
  assert (MailBox.fetch E T search_criteria limit miss_defect w
          = MailBox.fetch_loop E T limit miss_defect (Text.split 32%N text) 0
              (s1, w.2 ++ [Search None search_criteria])) as ->.
  { unfold MailBox.fetch, call. rewrite Hsearch.
    rewrite bool_decide_eq_false_2 by (intros Hne; by apply Hne).
    unfold MailBox.message_ids. rewrite bool_decide_eq_false_2 by done.
    by rewrite Hdecode. }
  destruct (fetch_loop_log E T limit miss_defect (Text.split 32%N text) 0
              (s1, w.2 ++ [Search None search_criteria])) as (k & Hk & Hlog & Hend).
  rewrite visited_from_zero in Hk, Hend.
  exists k. split_and!; [done| |done].
  rewrite Hlog. cbn [snd]. by rewrite <- app_assoc.
Qed.

End MoreFetch.

Lemma fetch_search_refused_witness :
  MailBox.fetch Double.ext Double.refusing (u "ALL") None true (tt, [])
  = (([], Some (MailBoxSearchError (u "NO")
                  [IBytes (b "[NONEXISTENT] Unknown Mailbox")])),
     (tt, [Search None (u "ALL")])).
Proof.
  apply (fetch_search_refused Double.ext Double.refusing (u "ALL") None true
           (tt, []) (u "NO") [IBytes (b "[NONEXISTENT] Unknown Mailbox")] tt eq_refl).
  discriminate.
Defined.

Lemma fetch_issues_limited_fetches_witness :
  exists k,
    (k <= 2)%nat
    /\ (MailBox.fetch Double.ext Double.server (u "ALL") (Some 2%Z) true Double.start).2.2
       = [] ++ Search None (u "ALL")
               :: map fetch_message (take k [u "1"; u "2"; u "3"])
    /\ ((MailBox.fetch Double.ext Double.server (u "ALL") (Some 2%Z) true
           Double.start).1.2 = None -> k = 2%nat).
Proof.
  apply (fetch_issues_limited_fetches Double.ext Double.server (u "ALL")
           (Some 2%Z) true Double.start (b "1 2 3") [] tt (u "1 2 3") eq_refl).
  - discriminate.
  - reflexivity.
Defined.

(** ** More on MailFolderManager *)

Section MoreFolderManager.
Variable E : externals.
Variable T : transport.
Implicit Types (w : world T).

(** X10.  [status] with an option outside [folder_status_options] raises
    [MailBoxFolderWrongStatusError] with the options, before the folder name
    is looked at and before any command is issued. *)
Theorem status_rejects_unknown_option (folder : arg) (options : list str) w :
  (exists o, o ∈ options /\ o ∉ MailFolderManager.folder_status_options) ->
  MailFolderManager.status E T folder (Some options) w
  = (Raise (MailBoxFolderWrongStatusError options), w).
Proof.
  intros (o & Hin & Hout). unfold MailFolderManager.status.
  assert (MailFolderManager.options_or_all (Some options) = options) as ->.
  { destruct options; [by apply elem_of_nil in Hin|done]. }
  assert (forallb (fun i => bool_decide (i ∈ MailFolderManager.folder_status_options))
            options = false) as ->; [|done].
  apply not_true_is_false. intros Hall.
  rewrite forallb_forall in Hall. apply Hout.
  apply (bool_decide_unpack _). apply Is_true_true, Hall. by apply list_elem_of_In.
Qed.

(** X11.  When the server does not acknowledge the STATUS command with [OK],
    [status] raises [BaseImapToolsError] with the command name, the status
    and the data, and does not go on to read the untagged response; a status
    other than [OK] of the untagged response raises the same error. *)
Theorem status_checks_both_stages (folder folder_ : arg)
    (options : option (list str)) w (typ : str) (data : list item)
    (s1 : tstate T) :
  Forall (fun i => i ∈ MailFolderManager.folder_status_options)
         (MailFolderManager.options_or_all options) ->
  MailFolderManager._normalise_folder E folder = Ok folder_ ->
  tstep T (fst w)
    (SimpleCommand (u "STATUS")
       [folder_;
        AStr (u "(" ++ Text.join (u " ") (MailFolderManager.options_or_all options)
              ++ u ")")])
  = (Ok (typ, data), s1) ->
  (typ <> OK ->
   MailFolderManager.status E T folder options w
   = (Raise (BaseImapToolsError (u "STATUS") typ data),
      (s1, snd w ++ [SimpleCommand (u "STATUS")
                       [folder_;
                        AStr (u "(" ++ Text.join (u " ")
                                         (MailFolderManager.options_or_all options)
                              ++ u ")")]])))
  /\ (forall (typ2 : str) (data2 : list item) (s2 : tstate T),
        typ = OK ->
        tstep T s1 (UntaggedResponse OK data (u "STATUS")) = (Ok (typ2, data2), s2) ->
        typ2 <> OK ->
        fst (MailFolderManager.status E T folder options w)
        = Raise (BaseImapToolsError (u "STATUS") typ2 data2)).
Proof.
  intros Hopts Hfolder Hsimple.
  assert (forallb (fun i => bool_decide (i ∈ MailFolderManager.folder_status_options))
            (MailFolderManager.options_or_all options) = true) as Hall.
  { apply forallb_forall. intros i Hi. apply bool_decide_eq_true.
    rewrite Forall_forall in Hopts. apply Hopts. by apply list_elem_of_In. }
  split.
  - intros Htyp. unfold MailFolderManager.status. rewrite Hall. cbn [negb].
    unfold mbind, M_bind, lift, call. rewrite Hfolder, Hsimple. cbn [fst snd].
    unfold _check_ok_status. by rewrite bool_decide_eq_true_2.
  - intros typ2 data2 s2 -> Huntagged Htyp2.
    unfold MailFolderManager.status. rewrite Hall. cbn [negb].
    unfold mbind, M_bind, lift, call. rewrite Hfolder, Hsimple. cbn [fst snd].
    change (_check_ok_status (u "STATUS") OK data) with (Ok tt : res unit).
    cbn [fst snd]. rewrite Huntagged. cbn [fst snd].
    unfold _check_ok_status. by rewrite bool_decide_eq_true_2.
Qed.

(** X12.  [_normalise_folder] returns the quoted form of the encoded name:
    it reads back, as a quoted string, to what the codec gave for the name.
    A folder given as ASCII bytes is treated as the [str] of the same
    characters, and bytes outside ASCII raise [UnicodeDecodeError]. *)
Theorem normalise_folder_quotes_encoded_name :
  (forall s : str,
     exists quoted,
       MailFolderManager._normalise_folder E (AStr s) = Ok quoted
       /\ unquote quoted = Some (ABytes (imap_utf7_encode E s)))
  /\ (forall d : bytes,
        Text.isascii (map Byte.to_N d) = true ->
        MailFolderManager._normalise_folder E (ABytes d)
        = MailFolderManager._normalise_folder E (AStr (map Byte.to_N d)))
  /\ (forall d : bytes,
        Text.isascii (map Byte.to_N d) = false ->
        MailFolderManager._normalise_folder E (ABytes d) = Raise UnicodeDecodeError).
Proof.
  split_and!.
  - intros s. eexists. split; [reflexivity|]. apply unquote_quote.
  - intros d Hd. unfold MailFolderManager._normalise_folder, Text.decode_ascii.
    by rewrite Hd.
  - intros d Hd. unfold MailFolderManager._normalise_folder, Text.decode_ascii.
    by rewrite Hd.
Qed.

End MoreFolderManager.

Lemma status_rejects_unknown_option_witness :
  MailFolderManager.status Double.ext Double.server (ABytes [Byte.xff])
    (Some [u "MESSAGES"; u "SIZE"]) Double.start
  = (Raise (MailBoxFolderWrongStatusError [u "MESSAGES"; u "SIZE"]), Double.start).
Proof.
  apply status_rejects_unknown_option.
  exists (u "SIZE"). split; by_evaluation.
Defined.

Lemma status_checks_both_stages_witness :
  MailFolderManager.status Double.ext Double.refusing (AStr (u "INBOX")) None (tt, [])
  = (Raise (BaseImapToolsError (u "STATUS") (u "NO")
              [IBytes (b "[NONEXISTENT] Unknown Mailbox")]),
     (tt, [SimpleCommand (u "STATUS")
             [ABytes ([Byte.x22] ++ b "INBOX" ++ [Byte.x22]);
              AStr (u "(MESSAGES RECENT UIDNEXT UIDVALIDITY UNSEEN)")]])).
Proof.
  apply (proj1 (status_checks_both_stages Double.ext Double.refusing
                  (AStr (u "INBOX")) (ABytes ([Byte.x22] ++ b "INBOX" ++ [Byte.x22]))
                  None (tt, []) (u "NO")
                  [IBytes (b "[NONEXISTENT] Unknown Mailbox")] tt
                  ltac:(repeat constructor; by_evaluation) eq_refl eq_refl)).
  discriminate.
Defined.

Lemma normalise_folder_quotes_encoded_name_witness :
  MailFolderManager._normalise_folder Double.ext (ABytes (b "My Folder"))
  = MailFolderManager._normalise_folder Double.ext (AStr (u "My Folder")).
Proof.
  apply (proj1 (proj2 (normalise_folder_quotes_encoded_name Double.ext))
           (b "My Folder")).
  reflexivity.
Defined.

(** ** More on MailMessage *)

Section MoreMailMessage.
Variable E : externals.

Lemma get_header_None (name_ : str) (m : Message) :
  lacks_header (unicode_db E) name_ m ->
  get_header (unicode_db E) name_ m = None.
Proof.
  intros Hnone. unfold get_header.
  destruct (List.find _ _) as [[k v]|] eqn:Hfind; [|done].
  apply find_some in Hfind as [Hin Heq]. apply bool_decide_eq_true in Heq.
  destruct (Hnone k v); [by apply list_elem_of_In | done].
Qed.

(** X13.  Missing headers: without a [Subject] header [subject] is the empty
    string and without a [Date] header [date] is the empty string, but
    without a [From] header [from_values] and [from_] raise [TypeError]. *)
Theorem accessors_without_header (self : MailMessage_) :
  (lacks_header (unicode_db E) (u "subject") (msg_obj self) ->
   MailMessage.subject E self = Ok [])
  /\ (lacks_header (unicode_db E) (u "date") (msg_obj self) ->
      MailMessage.date E self = [])
  /\ (lacks_header (unicode_db E) (u "from") (msg_obj self) ->
      MailMessage.from_values E self = Raise TypeError
      /\ MailMessage.from_ E self = Raise TypeError).
Proof.
  split_and!.
  - intros Hnone. unfold MailMessage.subject.
    by rewrite (has_header_false E (u "subject")).
  - intros Hnone. unfold MailMessage.date, getitem.
    by rewrite (get_header_None (u "Date")).
  - intros Hnone.
    assert (MailMessage.from_values E self = Raise TypeError) as Hvalues.
    { unfold MailMessage.from_values, getitem.
      by rewrite (get_header_None (u "from")). }
    split; [done|]. unfold MailMessage.from_. by rewrite Hvalues.
Qed.










Lemma parse_plain_addresses (segments : list str) :
  Forall (fun seg => ~ (60 ∈ seg /\ 62 ∈ seg)) segments ->
  mapM MailMessage._parse_email_address segments
  = Ok (map (fun seg =>
               {| MailMessage.email := Text.strip Text.isspace seg;
                  MailMessage.name := [];
                  MailMessage.full := Text.strip Text.isspace seg |})
            segments).
Proof.
  induction 1 as [|seg segments Hseg _ IH]; [done|].
  cbn [mapM map]. rewrite IH.
  assert (MailMessage._parse_email_address seg
          = Ok {| MailMessage.email := Text.strip Text.isspace seg;
                  MailMessage.name := [];
                  MailMessage.full := Text.strip Text.isspace seg |}) as ->; [|done].
  unfold MailMessage._parse_email_address.
  destruct (Text.contains (u "<") seg) eqn:Hlt;
    destruct (Text.contains (u ">") seg) eqn:Hgt; try reflexivity.
  destruct Hseg. split; by apply contains_one.
Qed.

(** X15.  For a [To] header whose first decoded chunk is text, [to] returns
    the pieces of that text between its commas, each stripped of surrounding
    white space, when no piece holds both [<] and [>]; chunks after the
    first are not looked at. *)
Theorem to_splits_at_commas (self : MailMessage_) (header text : str)
    (encoding : option str) (chunks : list (arg * option str)) :
  get_header (unicode_db E) (u "to") (msg_obj self) = Some header ->
  decode_header E header = (AStr text, encoding) :: chunks ->
  Forall (fun seg => ~ (60 ∈ seg /\ 62 ∈ seg)) (Text.split 44 text) ->
  MailMessage.to E self
  = Ok (map (Text.strip Text.isspace) (Text.split 44 text)).
Proof.
  intros Hheader Hdecode Hplain.
  assert (has_header (unicode_db E) (u "to") (msg_obj self) = true) as Hhas.
  { unfold get_header in Hheader. unfold has_header.
    destruct (List.find _ _) as [[k v]|] eqn:Hfind; [|done].
    apply find_some in Hfind as [Hin Heq].
    apply existsb_exists. by exists (k, v). }
  unfold MailMessage.to, MailMessage.to_values.
  rewrite Hhas, Hheader. cbn [of_option]. unfold mbind at 2. cbn [res_bind].
  rewrite Hdecode. cbn [MailMessage._decode_value].
  unfold mbind at 2. cbn [res_bind].
  rewrite parse_plain_addresses by done.
  unfold mbind. cbn [res_bind]. f_equal.
  rewrite map_map. by apply map_ext.
Qed.

End MoreMailMessage.

Lemma accessors_without_header_witness :
  MailMessage.from_ Double.ext
    {| msg_id := u "1"; msg_uid := None;
       msg_obj := Double.parse_message (b "Subject: x") |}
  = Raise TypeError.
Proof.
  apply (proj2 (proj2 (accessors_without_header Double.ext
           {| msg_id := u "1"; msg_uid := None;
              msg_obj := Double.parse_message (b "Subject: x") |}))).
  intros k v Hin. apply list_elem_of_singleton in Hin as [= -> ->].
  by_evaluation.
Defined.

Lemma to_splits_at_commas_witness :
  MailMessage.to Double.ext
    {| msg_id := u "1"; msg_uid := None;
       msg_obj := {| _headers := [(u "To", u "a@x.org, b@y.org")];
                     defects := []; _payload := [] |} |}
  = Ok [u "a@x.org"; u "b@y.org"].
Proof.
  apply (to_splits_at_commas Double.ext
           {| msg_id := u "1"; msg_uid := None;
              msg_obj := {| _headers := [(u "To", u "a@x.org, b@y.org")];
                            defects := []; _payload := [] |} |}
           (u "a@x.org, b@y.org") (u "a@x.org, b@y.org") None [] eq_refl eq_refl).
  repeat constructor; intros [Hlt _]; revert Hlt; by_evaluation.
Defined.


(** ** The bracketed form of an address *)

Section StarBacktracking.
Context {R : Type}.
Implicit Types (t : str) (kont : str -> option R).

Lemma star_fail (p : N -> bool) t kont :
  (forall a' t', t = a' ++ t' -> kont t' = None) -> Re.star p t kont = None.
Proof.
  induction t as [|c t IH]; intros Hfail; cbn.
  - by apply (Hfail []).
  - rewrite IH by (intros a' t' ->; by apply (Hfail (c :: a'))).
    rewrite (Hfail [] (c :: t)) by done. by destruct (p c).
Qed.

(** Greedy repetition gives back what it took until the rest matches: the
    match is at the shortest rest of the input that the continuation
    accepts. *)
Lemma star_first (p : N -> bool) t kont r :
  kont t = Some r ->
  (forall a' t', a' <> [] -> t = a' ++ t' -> kont t' = None) ->
  Re.star p t kont = Some r.
Proof.
  intros Hhere Hlater. destruct t as [|c t]; [done|]. cbn.
  rewrite (star_fail p t kont), Hhere; [by destruct (p c)|].
  intros a' t' ->. by apply (Hlater (c :: a')).
Qed.

End StarBacktracking.

Lemma head_other {R} (c : N) (t : str) (f : str -> option R) :
  (forall t1, t <> c :: t1) ->
  match t with
  | [] => None
  | c' :: s' => if c' =? c then f s' else None
  end = None.
Proof.
  intros Hhead. destruct t as [|c' t]; [done|].
  destruct (c' =? c) eqn:Hc; [|done].
  apply N.eqb_eq in Hc as ->. by destruct (Hhead t).
Qed.

Lemma suffix_free {A} (x : A) (l a' t' : list A) :
  x ∉ l -> l = a' ++ t' -> x ∉ t'.
Proof. intros Hl -> Hin. apply Hl, elem_of_app. by right. Qed.

Lemma match_bracketed (nm mail post : str) :
  10 ∉ nm -> 10 ∉ mail -> 60 ∉ mail -> 62 ∉ post ->
  Re.match_ MailMessage.address_re (nm ++ [60] ++ mail ++ [62] ++ post)
  = Some [(u "email", [60] ++ mail ++ [62]); (u "name", nm)].
Proof.
  intros Hnm Hmail Hopen Hclose.
  assert (forall l : str, 10 ∉ l -> Forall (fun c => Re.dot c = true) l) as Hdot.
  { intros l Hl. apply Forall_forall. intros c Hc. unfold Re.dot.
    apply negb_true_iff, N.eqb_neq. by intros ->. }
  unfold Re.match_, MailMessage.address_re. cbn [Re.run].
  set (kont := fun s'' : str => _).
  assert (Re.star Re.dot (nm ++ [60] ++ mail ++ [62] ++ post) kont
          = Some [(u "email", [60] ++ mail ++ [62]); (u "name", nm)]) as ->; [|done].
  apply star_app; [by apply Hdot|]. apply star_first.
  - (* at the bracket *)
    unfold kont. cbn [app].
    rewrite N.eqb_refl.
    rewrite (star_app Re.dot mail (62 :: post) _
               [(u "email", 60 :: mail ++ [62]); (u "name", nm)]); [done|by apply Hdot|].
    apply star_first.
    + cbn [Re.run]. rewrite N.eqb_refl. do 3 f_equal.
      * f_equal.
        replace (60 :: mail ++ 62 :: post) with ((60 :: mail ++ [62]) ++ post)
          by (cbn; by rewrite <- app_assoc).
        apply take_app_minus.
      * do 2 f_equal.
        apply (take_app_minus nm (60 :: mail ++ 62 :: post)).
    + intros a' t' Ha' Heq. cbn beta; apply (head_other 62). intros t1 ->.
      destruct a' as [|c a']; [done|]. injection Heq as _ Heq.
      apply (suffix_free 62 post a' (62 :: t1)) in Heq; [|done].
      apply Heq. by left.
  - (* beyond it: no later [<] is followed by a [>] *)
    intros a' t' Ha' Heq. unfold kont.
    destruct t' as [|c t1]; [done|].
    destruct (c =? 60) eqn:Hc; [|done]. apply N.eqb_eq in Hc as ->.
    destruct a' as [|c a']; [done|]. cbn in Heq. injection Heq as _ Heq.
    apply app_eq_inv in Heq as [(l & Hm & Ht)|(l & Ha & Ht)].
    + destruct l as [|c' l]; [cbn in Ht; discriminate|].
      cbn in Ht. injection Ht as <- _. destruct Hopen. rewrite Hm.
      apply elem_of_app. right. by left.
    + destruct l as [|c' l]; [cbn in Ht; discriminate|].
      cbn in Ht. injection Ht as _ Ht.
      apply star_fail. intros a2 t2 ->. cbn beta. apply (head_other 62).
      intros t3 ->. apply Hclose. rewrite Ht.
      rewrite elem_of_app, elem_of_cons, elem_of_app, elem_of_cons. tauto.
Qed.

Lemma lstrip_head {A} (p : A -> bool) (l tail : list A) :
  (forall c, c ∈ l -> p c = false) -> l <> [] ->
  Text.lstrip p (l ++ tail) = l ++ tail.
Proof.
  intros Hl Hne. destruct l as [|c l]; [done|]. cbn.
  rewrite Hl; [done|by left].
Qed.

(** [strip('<>')] takes the brackets off and leaves a text without brackets
    as it is. *)
Lemma strip_brackets (mail : str) :
  60 ∉ mail -> 62 ∉ mail ->
  Text.strip (fun c => bool_decide (c ∈ u "<>")) ([60] ++ mail ++ [62]) = mail.
Proof.
  intros Hopen Hclosed.
  assert (forall l : str, 60 ∉ l -> 62 ∉ l ->
            forall c, c ∈ l -> bool_decide (c ∈ u "<>") = false) as Hfree.
  { intros l Ho Hc c Hin. apply bool_decide_eq_false_2.
    intros [->|[->|[]%elem_of_nil]%elem_of_cons]%elem_of_cons; done. }
  unfold Text.strip, Text.rstrip. cbn [app Text.lstrip].
  change (bool_decide (60 ∈ u "<>")) with true. cbn iota.
  destruct mail as [|c mail]; [done|].
  rewrite lstrip_head by (by eauto).
  rewrite rev_app_distr. change (rev [62]) with [62]. cbn [app Text.lstrip].
  change (bool_decide (62 ∈ u "<>")) with true. cbn iota.
  rewrite <- (app_nil_r (rev (c :: mail))), lstrip_head, app_nil_r.
  - apply rev_involutive.
  - intros c' Hin. apply (Hfree (c :: mail)); [done..|].
    apply list_elem_of_In, in_rev. by apply list_elem_of_In.
  - intros Hrev. apply (f_equal (@length N)) in Hrev.
    rewrite length_rev in Hrev. done.
Qed.

(** X16.  An address with a bracketed part, [name<mail>rest] with no line
    feed before the closing bracket, no bracket inside [mail] and no [>] in
    [rest], parses into exactly [mail] as the e-mail, the text before the
    bracket stripped of surrounding white space as the name, and the whole
    input as [full]. *)
Theorem parse_email_address_bracketed (nm mail post : str) :
  10 ∉ nm -> 10 ∉ mail -> 60 ∉ mail -> 62 ∉ mail -> 62 ∉ post ->
  MailMessage._parse_email_address (nm ++ [60] ++ mail ++ [62] ++ post)
  = Ok {| MailMessage.email := mail;
          MailMessage.name := Text.strip Text.isspace nm;
          MailMessage.full := nm ++ [60] ++ mail ++ [62] ++ post |}.
Proof.
  intros Hnm Hmail Hopen Hclosed Hclose.
  unfold MailMessage._parse_email_address.
  assert (Text.contains (u "<") (nm ++ [60] ++ mail ++ [62] ++ post) = true) as ->.
  { apply contains_one. apply elem_of_app. right. by left. }
  assert (Text.contains (u ">") (nm ++ [60] ++ mail ++ [62] ++ post) = true) as ->.
  { apply contains_one. rewrite !elem_of_app. right. right. right. left. by left. }
  cbn [andb]. rewrite match_bracketed by done.
  cbn [of_option]. unfold mbind. cbn [res_bind].
  change (Re.group _ (u "name")) with (Some nm).
  change (Re.group _ (u "email")) with (Some ([60] ++ mail ++ [62])).
  cbn [of_option res_bind]. by rewrite (strip_brackets mail Hopen Hclosed).
Qed.

Lemma parse_email_address_bracketed_witness :
  MailMessage._parse_email_address (u "Ivan Petrov <ivan@mail.ru> (work)")
  = Ok {| MailMessage.email := u "ivan@mail.ru";
          MailMessage.name := u "Ivan Petrov";
          MailMessage.full := u "Ivan Petrov <ivan@mail.ru> (work)" |}.
Proof.
  apply (parse_email_address_bracketed (u "Ivan Petrov ") (u "ivan@mail.ru")
           (u " (work)")); by_evaluation.
Defined.

(** ** Responses without a message *)

Section FetchWithoutLiteral.
Variable E : externals.
Variable T : transport.
Implicit Types (w : world T) (ids : list str).

Hypothesis empty_mail : truthy (message_from_bytes E []) = false.
Hypothesis no_literal : answers_no_literal T.

Lemma fetch_loop_skips (limit : option Z) (miss_defect : bool) ids (i : nat) w :
  (MailBox.fetch_loop E T limit miss_defect ids i w).1 = ([], None).
Proof.
  revert i w. induction ids as [|message_id ids IH]; intros i w;
    cbn [MailBox.fetch_loop]; [done|].
  destruct (MailBox.limit_reached limit i); [done|].
  unfold call. fold (fetch_message message_id).
  destruct (no_literal w.1 message_id) as (typ & data & s1 & -> & Hdata).
  unfold MailBox._clean_message_data. rewrite clean_no_pair by done.
  rewrite empty_mail. apply IH.
Qed.

End FetchWithoutLiteral.

(** X17.  [fetch] never looks at the status of a FETCH response.  When the
    mail parser finds no header in empty input and the server answers every
    FETCH without a paired element, as it does when it refuses the command,
    [fetch] visits every message id, yields nothing and ends without an
    exception. *)
Theorem fetch_ignores_fetch_status (E : externals) (T : transport)
    (search_criteria : str) (limit : option Z) (miss_defect : bool)
    (w : world T) (d : bytes) (rest : list item) (s1 : tstate T) (text : str) :
  tstep T (fst w) (Search None search_criteria)
  = (Ok (OK, IBytes d :: rest), s1) ->
  d <> [] ->
  Text.decode d = Some text ->
  truthy (message_from_bytes E []) = false ->
  answers_no_literal T ->
  (MailBox.fetch E T search_criteria limit miss_defect w).1 = ([], None)
  /\ (MailBox.fetch E T search_criteria limit miss_defect w).2.2
     = snd w ++ Search None search_criteria
                :: map fetch_message
                     (take (visited limit (length (Text.split 32%N text)))
                           (Text.split 32%N text)).
Proof.
  intros Hsearch Hd Hdecode Hempty Hnone.
  assert (MailBox.fetch E T search_criteria limit miss_defect w
          = MailBox.fetch_loop E T limit miss_defect (Text.split 32%N text) 0
              (s1, w.2 ++ [Search None search_criteria])) as ->.
  { unfold MailBox.fetch, call. rewrite Hsearch.
    rewrite bool_decide_eq_false_2 by (intros Hne; by apply Hne).
    unfold MailBox.message_ids. rewrite bool_decide_eq_false_2 by done.
    by rewrite Hdecode. }
  pose proof (fetch_loop_skips E T Hempty Hnone limit miss_defect
                (Text.split 32%N text) 0
                (s1, w.2 ++ [Search None search_criteria])) as Hskip.
  split; [done|].
  destruct (fetch_loop_log E T limit miss_defect (Text.split 32%N text) 0
              (s1, w.2 ++ [Search None search_criteria])) as (k & Hk & Hlog & Hend).
  rewrite Hskip in Hend. rewrite Hlog, (Hend eq_refl), visited_from_zero.
  cbn [snd]. by rewrite <- app_assoc.
Qed.

Lemma fetch_ignores_fetch_status_witness :
  (MailBox.fetch Double.ext withholding (u "ALL") (Some 2%Z) false (tt, [])).1
  = ([], None)
  /\ (MailBox.fetch Double.ext withholding (u "ALL") (Some 2%Z) false (tt, [])).2.2
     = [] ++ Search None (u "ALL")
             :: map fetch_message
                  (take (visited (Some 2%Z) (length (Text.split 32%N (u "1 2 3"))))
                        (Text.split 32%N (u "1 2 3"))).
Proof.
  apply (fetch_ignores_fetch_status Double.ext withholding (u "ALL") (Some 2%Z)
           false (tt, []) (b "1 2 3") [] tt (u "1 2 3") eq_refl).
  - discriminate.
  - reflexivity.
  - reflexivity.
  - intros [] message_id.
    exists (u "NO"), [IBytes (b "FETCH failed")], tt.
    split; [reflexivity|]. repeat constructor.
Defined.

(** ** Moving by hand *)

(** X18.  [copy] and then [delete] on the same non-empty list of UIDs, which
    is what [move] sets out to do, come down to three commands with nothing
    checked in between: UID COPY with the joined UIDs and the destination as
    it was given, UID STORE that adds [\Deleted] to the same UIDs, and
    EXPUNGE.  The three raw responses are the result, whatever their status;
    only an exception of the transport ends the sequence early. *)
Theorem copy_then_delete (T : transport) (uids : list str)
    (destination_folder : str) (w : world T) :
  uids <> [] ->
  (copy_result ← MailBox.copy T (PList uids) destination_folder;
   delete_result ← MailBox.delete T (PList uids);
   mret (copy_result, delete_result)) w
  = (copy_result ← call (Uid (u "COPY") [AStr (Text.join (u ",") uids);
                                          AStr destination_folder]);
     store_result ← call (store_flags uids [u "Deleted"] true);
     expunge_result ← call Expunge;
     mret (copy_result, (store_result, expunge_result))) w.
Proof.
  intros Hne.
  unfold MailBox.copy, MailBox.delete, MailBox.expunge, mbind, M_bind, lift.
  rewrite (_uid_str_list uids Hne).
  change (store_flags uids [u "Deleted"] true)
    with (Uid (u "STORE") [AStr (Text.join (u ",") uids); AStr (u "+FLAGS");
                           AStr (u "(\Deleted)")]).
  destruct (call _ w) as [[copy_result|e] w1]; [|done].
  destruct (call _ w1) as [[store_result|e] w2]; [|done].
  by destruct (call Expunge w2) as [[expunge_result|e] w3].
Qed.

Lemma copy_then_delete_witness :
  (copy_result ← MailBox.copy Double.refusing (PList [u "4"; u "7"]) (u "Archive");
   delete_result ← MailBox.delete Double.refusing (PList [u "4"; u "7"]);
   mret (copy_result, delete_result)) (tt, [])
  = (copy_result ← call (Uid (u "COPY") [AStr (Text.join (u ",") [u "4"; u "7"]);
                                          AStr (u "Archive")]);
     store_result ← call (store_flags [u "4"; u "7"] [u "Deleted"] true);
     expunge_result ← call Expunge;
     mret (copy_result, (store_result, expunge_result)))
      ((tt, []) : world Double.refusing).
Proof.
  apply (copy_then_delete Double.refusing [u "4"; u "7"] (u "Archive")
           (tt, [])).
  discriminate.
Defined.

(** ** The pattern of list *)

Section Backtracking.
Context {R : Type}.
Implicit Types (k : str -> Re.groups -> option R) (g : Re.groups).

Lemma run_seq (r1 r2 : Re.re) (s : str) g k :
  Re.run (Re.Seq r1 r2) s g k = Re.run r1 s g (fun s' g' => Re.run r2 s' g' k).
Proof. reflexivity. Qed.

Lemma run_chr (c : N) (s : str) g k : Re.run (Re.Chr c) (c :: s) g k = k s g.
Proof. cbn. by rewrite N.eqb_refl. Qed.

(** A greedy group gives back what it took until the rest of the pattern
    matches. *)
Lemma run_group_star (name_ : str) (p : N -> bool) (a t : str) g k r :
  Forall (fun c => p c = true) a ->
  k t ((name_, a) :: g) = Some r ->
  (forall a' t' g', a' <> [] -> t = a' ++ t' -> k t' g' = None) ->
  Re.run (Re.Group name_ (Re.Star p)) (a ++ t) g k = Some r.
Proof.
  intros Ha Hhere Hlater. cbn [Re.run].
  apply star_app; [done|]. apply star_first.
  - by rewrite take_app_minus.
  - intros a' t' Ha' Heq. by apply (Hlater a').
Qed.

Lemma run_group_plus (name_ : str) (p : N -> bool) (a t : str) g k r :
  Forall (fun c => p c = true) a -> a <> [] ->
  k t ((name_, a) :: g) = Some r ->
  (forall a' t' g', a' <> [] -> t = a' ++ t' -> k t' g' = None) ->
  Re.run (Re.Group name_ (Re.Plus p)) (a ++ t) g k = Some r.
Proof.
  intros Ha Hne Hhere Hlater. destruct Ha as [|c a Hc Ha]; [done|].
  cbn [Re.run app]. rewrite Hc.
  apply star_app; [done|]. apply star_first.
  - pose proof (take_app_minus (c :: a) t) as Htake. cbn [app] in Htake.
    by rewrite Htake.
  - intros a' t' Ha' Heq. by apply (Hlater a').
Qed.

Lemma occurrences_suffix (c : N) (a' t' : str) :
  (occurrences c t' <= occurrences c (a' ++ t'))%nat.
Proof. unfold occurrences. rewrite count_occ_app. lia. Qed.

(** A pattern does not match where the character [c] stands less often than
    the pattern and what follows it ask for. *)
Lemma run_needs (c : N) (r : Re.re) :
  forall (n : nat) (s : str) g k,
    (forall t g', (occurrences c t < n)%nat -> k t g' = None) ->
    (occurrences c s < n + least_occurrences c r)%nat ->
    Re.run r s g k = None.
Proof.
  induction r as [|x|p|r1 IH1 r2 IH2|p|p|r IH|name_ r IH];
    intros n s g k Hk Hs; cbn [least_occurrences] in Hs.
  - apply Hk. lia.
  - cbn. destruct s as [|c' s]; [done|].
    destruct (c' =? x) eqn:Hx; [|done]. apply N.eqb_eq in Hx as ->.
    apply Hk. unfold occurrences in *. cbn [count_occ] in Hs.
    destruct (decide (x = c)) as [->|Hne].
    + destruct (N.eq_dec c c); [lia|done].
    + destruct (N.eq_dec x c); [done|lia].
  - cbn. destruct s as [|c' s]; [done|]. destruct (p c'); [|done].
    apply Hk. pose proof (occurrences_suffix c [c'] s). cbn [app] in *. lia.
  - rewrite run_seq. apply (IH1 (n + least_occurrences c r2)%nat); [|lia].
    intros t g' Ht. by apply (IH2 n).
  - cbn. apply star_fail. intros a' t' ->. apply Hk.
    pose proof (occurrences_suffix c a' t'). lia.
  - cbn. destruct s as [|c' s]; [done|]. destruct (p c'); [|done].
    apply star_fail. intros a' t' ->. apply Hk.
    pose proof (occurrences_suffix c (c' :: a') t'). cbn [app] in *. lia.
  - cbn [Re.run]. rewrite (IH n s g k Hk) by lia. apply Hk. lia.
  - cbn [Re.run]. apply (IH n); [|done]. intros t g' Ht. by apply Hk.
Qed.

End Backtracking.

Lemma occurrences_none (c : N) (s : str) : c ∉ s -> occurrences c s = 0%nat.
Proof.
  intros Hs. apply count_occ_not_In. intros Hin. by apply Hs, list_elem_of_In.
Qed.

Lemma search_of_match (r : Re.re) (s : str) (g : Re.groups) :
  Re.match_ r s = Some g -> Re.search r s = Some g.
Proof. intros Hm. destruct s; cbn; by rewrite Hm. Qed.

Lemma folder_line_match (flags delim name : str) :
  folder_parts flags delim name ->
  Re.match_ MailFolderManager.folder_item_re (folder_line flags delim name)
  = Some [(u "name", name); (u "delim", delim); (u "flags", flags)].
Proof.
  intros (Hclass & Hdelim & Hname & Hqd & Hqn).
  apply Forall_app in Hclass as [Hflags Hclass].
  apply Forall_app in Hclass as [Hdelims Hnames].
  apply occurrences_none in Hqd, Hqn. unfold dquote in Hqd, Hqn.
  assert (forall s : str, occurrences 34 (34 :: s) = S (occurrences 34 s)) as Hquote.
  { intros s. unfold occurrences. by rewrite count_occ_cons_eq. }
  assert (forall (x : N) (s : str), x <> 34 ->
            occurrences 34 (x :: s) = occurrences 34 s) as Hother.
  { intros x s Hx. unfold occurrences. by rewrite count_occ_cons_neq. }
  assert (forall s1 s2 : str, occurrences 34 (s1 ++ s2)
            = (occurrences 34 s1 + occurrences 34 s2)%nat) as Happ.
  { intros s1 s2. apply count_occ_app. }
  assert (occurrences 34 [] = 0%nat) as Hnil by reflexivity.
  change (folder_line flags delim name)
    with (40 :: flags ++ [41; 32; 34] ++ delim ++ [34; 32; 34] ++ name ++ [34]).
  unfold Re.match_, MailFolderManager.folder_item_re, dquote.
  rewrite run_seq, run_chr, run_seq.
  apply run_group_star; [done| |].
  - (* the delimiter *)
    rewrite run_seq, run_lits_app, run_seq.
    apply run_group_plus; [done..| |].
    + (* the name *)
      rewrite run_seq, run_lits_app, run_seq.
      apply run_group_plus; [done..| |].
      * reflexivity.
      * intros a' t' g' Ha' Heq.
        apply (run_needs 34 _ 0); [intros; lia|].
        destruct a' as [|x a']; [done|]. injection Heq as _ Heq.
        symmetry in Heq. apply app_eq_nil in Heq as [_ ->].
        change (least_occurrences 34 (Re.Chr 34)) with 1%nat. rewrite Hnil. lia.
    + intros a' t' g' Ha' Heq.
      apply (run_needs 34 _ 0); [intros; lia|].
      destruct a' as [|x a']; [done|]. injection Heq as _ Heq.
      pose proof (occurrences_suffix 34 a' t') as Hle. rewrite <- Heq in Hle.
      rewrite Hother, Hquote, Happ, Hqn, Hquote, Hnil in Hle by done.
      change (least_occurrences 34 _) with 3%nat. lia.
  - (* the flags: no later parenthesis opens a delimiter and a name *)
    intros a' t' g' Ha' Heq.
    destruct a' as [|x1 [|x2 [|x3 a']]]; [done|..]; cbn [app] in Heq.
    + injection Heq as _ <-. reflexivity.
    + injection Heq as _ _ <-. reflexivity.
    + injection Heq as _ _ _ Heq.
      apply (run_needs 34 _ 0); [intros; lia|].
      pose proof (occurrences_suffix 34 a' t') as Hle. rewrite <- Heq in Hle.
      rewrite Happ, Hqd, Hquote, Hother, Hquote, Happ, Hqn, Hquote, Hnil in Hle
        by done.
      change (least_occurrences 34 _) with 4%nat. lia.
Qed.

Lemma search_without_parenthesis (text : str) :
  40 ∉ text -> Re.search MailFolderManager.folder_item_re text = None.
Proof.
  induction text as [|c text IH]; intros Hfree; [reflexivity|].
  apply not_elem_of_cons in Hfree as [Hc Hfree].
  cbn [Re.search]. rewrite IH by done.
  unfold Re.match_, MailFolderManager.folder_item_re. rewrite run_seq.
  cbn [Re.run]. destruct (c =? 40) eqn:Heq; [|done].
  by apply N.eqb_eq in Heq.
Qed.

(** ** MailFolderManager: list *)

Section Listing.
Variable E : externals.
Variable T : transport.
Variable decode : item -> res str.
Implicit Types (w : world T) (data : list item).

Lemma list_items_listed data (result : list (gmap str str)) :
  listed decode data result ->
  MailFolderManager.list_items decode data = Ok result.
Proof.
  induction 1 as [|x data result Hx _ IH
                  |x flags delim name data result Hx Hline Hparts _ IH];
    cbn [MailFolderManager.list_items]; [done|by rewrite Hx|].
  rewrite Hx, Hline. unfold mbind at 1. cbn [res_bind].
  rewrite (search_of_match _ _ _ (folder_line_match flags delim name Hparts)).
  cbn [of_option]. unfold mbind at 1. cbn [res_bind]. by rewrite IH.
Qed.

Lemma list_items_unparsed (skipped rest : list item) (x : item) (text : str) :
  Forall (fun y => MailFolderManager.item_truthy y = false) skipped ->
  MailFolderManager.item_truthy x = true ->
  decode x = Ok text ->
  40 ∉ text ->
  MailFolderManager.list_items decode (skipped ++ x :: rest)
  = Raise AttributeError.
Proof.
  intros Hskipped Hx Htext Hfree.
  induction Hskipped as [|y skipped Hy _ IH]; cbn [app MailFolderManager.list_items].
  - rewrite Hx, Htext. unfold mbind at 1. cbn [res_bind].
    by rewrite search_without_parenthesis.
  - by rewrite Hy.
Qed.

Lemma list_runs (folder folder_ : arg) (search_args : str)
    (subscribed_only : bool) w (typ1 typ2 : str) (data1 data2 : list item)
    (s1 s2 : tstate T) :
  MailFolderManager._normalise_folder E folder = Ok folder_ ->
  tstep T (fst w) (SimpleCommand (list_command subscribed_only)
                     [folder_; AStr search_args])
  = (Ok (typ1, data1), s1) ->
  tstep T s1 (UntaggedResponse typ1 data1 (list_command subscribed_only))
  = (Ok (typ2, data2), s2) ->
  MailFolderManager.list E T decode folder search_args subscribed_only w
  = (MailFolderManager.list_items decode data2,
     (s2, snd w ++ [SimpleCommand (list_command subscribed_only)
                      [folder_; AStr search_args];
                    UntaggedResponse typ1 data1 (list_command subscribed_only)])).
Proof.
  intros Hfolder Hcommand Hresponse.
  unfold MailFolderManager.list, mbind, M_bind, lift, call.
  fold (list_command subscribed_only).
  rewrite Hfolder, Hcommand. cbn [fst snd]. rewrite Hresponse.
  by rewrite <- app_assoc.
Qed.

(** X19.  [list] asks for the normalised folder with LIST, or LSUB when
    only subscribed folders are wanted, and reads the untagged response
    without looking at either status.  For a response of lines
    [(flags) "delim" "name"] whose parts hold no white space but the space
    and whose delimiter and name are not empty and hold no double quote, the
    result has one [dict] for each line, in the order of the response, with
    the three parts under [flags], [delim] and [name]; empty items are
    passed over. *)
Theorem list_reads_folder_lines (folder folder_ : arg) (search_args : str)
    (subscribed_only : bool) w (typ1 typ2 : str) (data1 data2 : list item)
    (s1 s2 : tstate T) (result : list (gmap str str)) :
  MailFolderManager._normalise_folder E folder = Ok folder_ ->
  tstep T (fst w) (SimpleCommand (list_command subscribed_only)
                     [folder_; AStr search_args])
  = (Ok (typ1, data1), s1) ->
  tstep T s1 (UntaggedResponse typ1 data1 (list_command subscribed_only))
  = (Ok (typ2, data2), s2) ->
  listed decode data2 result ->
  MailFolderManager.list E T decode folder search_args subscribed_only w
  = (Ok result,
     (s2, snd w ++ [SimpleCommand (list_command subscribed_only)
                      [folder_; AStr search_args];
                    UntaggedResponse typ1 data1 (list_command subscribed_only)])).
Proof.
  intros Hfolder Hcommand Hresponse Hlisted.
  rewrite (list_runs folder folder_ search_args subscribed_only w typ1 typ2
             data1 data2 s1 s2) by done.
  by rewrite (list_items_listed data2 result).
Qed.

(** X20.  [list] raises [AttributeError] when the first item of the untagged
    response that is not empty decodes to text without an opening
    parenthesis, such as the text of a refusal: the status is never looked
    at, and the text is read as a folder line. *)
Theorem list_reads_refusal_as_folder (folder folder_ : arg) (search_args : str)
    (subscribed_only : bool) w (typ1 typ2 : str) (data1 : list item)
    (s1 s2 : tstate T) (skipped rest : list item) (x : item) (text : str) :
  MailFolderManager._normalise_folder E folder = Ok folder_ ->
  tstep T (fst w) (SimpleCommand (list_command subscribed_only)
                     [folder_; AStr search_args])
  = (Ok (typ1, data1), s1) ->
  tstep T s1 (UntaggedResponse typ1 data1 (list_command subscribed_only))
  = (Ok (typ2, skipped ++ x :: rest), s2) ->
  Forall (fun y => MailFolderManager.item_truthy y = false) skipped ->
  MailFolderManager.item_truthy x = true ->
  decode x = Ok text ->
  40 ∉ text ->
  MailFolderManager.list E T decode folder search_args subscribed_only w
  = (Raise AttributeError,
     (s2, snd w ++ [SimpleCommand (list_command subscribed_only)
                      [folder_; AStr search_args];
                    UntaggedResponse typ1 data1 (list_command subscribed_only)])).
Proof.
  intros Hfolder Hcommand Hresponse Hskipped Hx Htext Hfree.
  rewrite (list_runs folder folder_ search_args subscribed_only w typ1 typ2
             data1 (skipped ++ x :: rest) s1 s2) by done.
  by rewrite (list_items_unparsed skipped rest x text).
Qed.

End Listing.

Lemma list_reads_folder_lines_witness :
  MailFolderManager.list Double.ext two_folders decode_ascii_item
    (AStr (u "INBOX")) (u "*") false (tt, [])
  = (Ok [folder_entry (u "\HasNoChildren") (u "/") (u "INBOX");
         folder_entry [] (u "/") (u "My Folder")],
     (tt, [] ++ [SimpleCommand (list_command false)
                   [ABytes ([Byte.x22] ++ b "INBOX" ++ [Byte.x22]); AStr (u "*")];
                 UntaggedResponse OK [INone] (list_command false)])).
Proof.
  apply (list_reads_folder_lines Double.ext two_folders decode_ascii_item
           (AStr (u "INBOX")) (ABytes ([Byte.x22] ++ b "INBOX" ++ [Byte.x22]))
           (u "*") false (tt, []) OK OK [INone]
           [IBytes (Double.encode_ascii
                      (folder_line (u "\HasNoChildren") (u "/") (u "INBOX")));
            INone;
            IBytes (Double.encode_ascii (folder_line [] (u "/") (u "My Folder")))]
           tt tt _ eq_refl eq_refl eq_refl).
  apply listed_folder; [reflexivity|reflexivity|unfold folder_parts; by_evaluation|].
  apply listed_empty; [reflexivity|].
  apply listed_folder; [reflexivity|reflexivity|unfold folder_parts; by_evaluation|].
  apply listed_end.
Defined.

Lemma list_reads_refusal_as_folder_witness :
  MailFolderManager.list Double.ext Double.refusing decode_ascii_item
    (AStr (u "Nowhere")) (u "*") true (tt, [])
  = (Raise AttributeError,
     (tt, [] ++ [SimpleCommand (list_command true)
                   [ABytes ([Byte.x22] ++ b "Nowhere" ++ [Byte.x22]); AStr (u "*")];
                 UntaggedResponse (u "NO")
                   [IBytes (b "[NONEXISTENT] Unknown Mailbox")]
                   (list_command true)])).
Proof.
  apply (list_reads_refusal_as_folder Double.ext Double.refusing decode_ascii_item
           (AStr (u "Nowhere")) (ABytes ([Byte.x22] ++ b "Nowhere" ++ [Byte.x22]))
           (u "*") true (tt, []) (u "NO") (u "NO")
           [IBytes (b "[NONEXISTENT] Unknown Mailbox")] tt tt
           [] [] (IBytes (b "[NONEXISTENT] Unknown Mailbox"))
           (u "[NONEXISTENT] Unknown Mailbox") eq_refl eq_refl eq_refl).
  - constructor.
  - reflexivity.
  - reflexivity.
  - by_evaluation.
Defined.
